(** * Comparison gadgets of o1js ([src/lib/provable/gadgets/comparison.ts])

    A shallow embedding of the comparison gadgets and of the small part of
    the circuit-construction runtime they call, followed by the properties
    of the gadgets.

    The gadget code runs in two modes over one and the same text: while the
    circuit is compiled only the shape of the constraint system is
    recorded; while a proof is produced every variable also carries a
    concrete value.  Both are covered by one state-and-exception monad
    [Circuit]. *)

From Stdlib Require Import ZArith List Lia Bool.
From Stdlib Require Import Zdivisibility Zcong.
Import ListNotations.
Local Open Scope Z_scope.

(** ** Data *)

(** The expression tree behind a field element ([FieldVar] of o1js): a
    constant, a variable of the constraint system, a sum, or a multiple. *)
Inductive FieldVar : Type :=
| Constant (c : Z)
| Var (i : nat)
| Add (a b : FieldVar)
| Scale (c : Z) (a : FieldVar).

Definition Field : Type := FieldVar.

(** A boolean wire wraps the same expression tree; [createBool(b.value)]
    re-labels a field element as a [Bool] and adds no constraint. *)
Record Bool : Type := createBool { toField : Field }.

(** The constraints the gadgets can emit. *)
Inductive Constraint : Type :=
| Boolean (x : FieldVar)          (* assertBool:   x * x = x *)
| Equal (x y : FieldVar)          (* assertEquals: x = y     *)
| R1CS (a b c : FieldVar).        (* assertMul:    a * b = c *)

(** Compiling only counts the variables; proving stores their values. *)
Inductive Mode : Type :=
| Compile (n : nat)
| Prove (w : list Z).

Record State : Type := mkState { mode : Mode; gates : list Constraint }.

Definition next_var (s : State) : nat :=
  match mode s with
  | Compile n => n
  | Prove w => length w
  end.

Definition inProver (s : State) : bool :=
  match mode s with
  | Compile _ => false
  | Prove _ => true
  end.

(** What the gadgets throw.  The two messages of the source are template
    strings; the numbers they are formatted from are kept as data. *)
Inductive Exn : Type :=
| BitLengthTooLarge (maxLength : Z)
    (* assert: `bitLength must be at most ${maxLength}` *)
| ComparisonOutOfRange (c x0 y0 : Z)
    (* Error: `Provable comparison can only be used on Fields <= ${log2(c)}
       bits, got ${Math.max(log2(x0), log2(y0))} bits.` *)
| InvalidSize (size : Z)
    (* exists: a negative number of variables was asked for *)
| WitnessLengthMismatch (expected got : nat)
    (* exists: the prover callback returned the wrong number of values *)
| TypeError.
    (* a method call on [undefined] *)

(** An exception carries the state in which it was thrown. *)
Inductive Result (A : Type) : Type :=
| Ok (a : A) (s : State)
| Throw (e : Exn) (s : State).
Arguments Ok {A} a s.
Arguments Throw {A} e s.

Definition Circuit (A : Type) : Type := State -> Result A.

Definition ret {A} (a : A) : Circuit A := fun s => Ok a s.

Definition bind {A B} (m : Circuit A) (k : A -> Circuit B) : Circuit B :=
  fun s =>
    match m s with
    | Ok a s' => k a s'
    | Throw e s' => Throw e s'
    end.

Definition throw {A} (e : Exn) : Circuit A := fun s => Throw e s.

Notation "x <- m ;; k" := (bind m (fun x => k))
  (at level 61, m at next level, right associativity).
Notation "m ;; k" := (bind m (fun _ => k))
  (at level 61, right associativity).

(** [assert(cond, message)] of [lib/util/assert]. *)
Definition assert (cond : bool) (e : Exn) : Circuit unit :=
  if cond then ret tt else throw e.

(** [xs.forEach(f)] *)
Fixpoint forEach {A} (xs : list A) (f : A -> Circuit unit) : Circuit unit :=
  match xs with
  | [] => ret tt
  | x :: xs' => f x ;; forEach xs' f
  end.

(** [xs.reduce((acc, b, i) => f(acc, b, i), init)], [i] counting from [i0]. *)
Fixpoint reduce_from {A B} (f : B -> A -> nat -> B) (i0 : nat)
    (xs : list A) (init : B) : B :=
  match xs with
  | [] => init
  | x :: xs' => reduce_from f (S i0) xs' (f init x i0)
  end.

Definition reduce {A B} (f : B -> A -> nat -> B) (xs : list A) (init : B) : B :=
  reduce_from f 0 xs init.

(** [xs[n]] for a JS number [n]: [undefined] outside the array. *)
Definition index {A} (xs : list A) (n : Z) : option A :=
  if n <? 0 then None else nth_error xs (Z.to_nat n).

(** [xs.slice(0, n)]: a negative [n] counts from the end of the array. *)
Definition slice0 {A} (xs : list A) (n : Z) : list A :=
  firstn (Z.to_nat (if n <? 0 then Z.of_nat (length xs) + n else n)) xs.

(** An assignment gives every variable a value; the witness of a prover
    run is the assignment of the variables created so far. *)
Definition env : Type := nat -> Z.

Definition lookup (w : list Z) : env := fun i => nth i w 0.

Definition agree (n : nat) (rho rho' : env) : Prop :=
  forall i, (i < n)%nat -> rho' i = rho i.

(** All variables of an expression are among the first [n]. *)
Fixpoint wf (n : nat) (v : FieldVar) : Prop :=
  match v with
  | Constant _ => True
  | Var i => (i < n)%nat
  | Add a b => wf n a /\ wf n b
  | Scale _ a => wf n a
  end.

(** Two states to run the gadgets in: a circuit under compilation that
    has two variables, and a prover run in which they are 5 and 9. *)
Definition compiling : State := mkState (Compile 2) [].
Definition proving : State := mkState (Prove [5; 9]) [].

(** The order of the Pallas base field, the field o1js is built over; it
    has 255 bits. *)
Definition Pallas : Z :=
  0x40000000000000000000000000000000224698fc094cf91b992d30ed00000001.

(** Trial division, to exhibit concrete prime moduli. *)
Definition prime_check (q : Z) : bool :=
  (1 <? q) &&
  forallb (fun k => negb (q mod Z.of_nat k =? 0)) (seq 2 (Z.to_nat q - 2)).

Section Gadgets.

(** The field order.  [Fp] of [bindings/crypto/finite-field] is not part of
    the sources at hand, so the modulus is a parameter. *)
Variable p : Z.

(** ** The field [Fp] *)

(** Modelled from the spec: [Fp.add], [Fp.sub], [Fp.mul], [Fp.inverse] and
    [Fp.sizeInBits] of the missing [finite-field] module; all arithmetic is
    performed modulo [p], the inverse is undefined at zero, and the size is
    the bit-width of [p]. *)
Definition Fp_add (a b : Z) : Z := (a + b) mod p.
Definition Fp_sub (a b : Z) : Z := (a - b) mod p.
Definition Fp_mul (a b : Z) : Z := (a * b) mod p.
Definition Fp_inverse (a : Z) : option Z :=
  if a mod p =? 0 then None else Some (Z.invmod a p).
Definition Fp_sizeInBits : Z := Z.log2 p + 1.

(** ** Field elements and boolean wires *)

(** Modelled from the spec: the [Field] and [Bool] classes are external
    collaborators.  Constants are reduced modulo [p] and folded; anything
    else grows the expression tree. *)
Definition createField (c : Z) : Field := Constant (c mod p).

Definition add (x y : Field) : Field :=
  match x, y with
  | Constant a, Constant b => Constant (Fp_add a b)
  | _, _ => Add x y
  end.

Definition neg (x : Field) : Field :=
  match x with
  | Constant a => Constant (Fp_sub 0 a)
  | _ => Scale ((-1) mod p) x
  end.

Definition sub (x y : Field) : Field := add x (neg y).

(** [x.mul(c)] for a constant [c]. *)
Definition scale (c : Z) (x : Field) : Field :=
  match x with
  | Constant a => Constant (Fp_mul a c)
  | _ => Scale (c mod p) x
  end.

(** The value of an expression under an assignment of the variables. *)
Fixpoint eval (rho : env) (v : FieldVar) : Z :=
  match v with
  | Constant c => c mod p
  | Var i => rho i mod p
  | Add a b => Fp_add (eval rho a) (eval rho b)
  | Scale c a => Fp_mul c (eval rho a)
  end.

(** [x.toBigInt()], called inside prover blocks only, where the values of
    all variables created so far are at hand. *)
Definition toBigInt (w : list Z) (x : Field) : Z := eval (lookup w) x.

(** When an assignment satisfies a constraint. *)
Definition holds (rho : env) (g : Constraint) : Prop :=
  match g with
  | Boolean x => Fp_mul (eval rho x) (eval rho x) = eval rho x
  | Equal x y => eval rho x = eval rho y
  | R1CS a b c => Fp_mul (eval rho a) (eval rho b) = eval rho c
  end.

Definition satisfies (rho : env) (gs : list Constraint) : Prop :=
  Forall (holds rho) gs.

(** [gs] can be satisfied without touching the first [n] variables. *)
Definition satisfiable_from (n : nat) (rho : env) (gs : list Constraint) : Prop :=
  exists rho', agree n rho rho' /\ satisfies rho' gs.

(** ** The runtime the gadgets call *)

Definition addConstraint (g : Constraint) : Circuit unit :=
  fun s => Ok tt (mkState (mode s) (gates s ++ [g])).

(** Modelled from the spec: [exists(size, compute)] of the missing
    [core/exists] yields [size] fresh variables; [compute] runs in prover
    mode only and its results, reduced modulo [p], become their values.
    A negative [size] is refused, in either mode, before anything is
    created. *)
Definition exists_ (size : Z) (compute : list Z -> list Z) : Circuit (list Field) :=
  fun s =>
    let fresh n := map Var (seq n (Z.to_nat size)) in
    if size <? 0 then Throw (InvalidSize size) s else
    match mode s with
    | Compile n =>
        Ok (fresh n) (mkState (Compile (n + Z.to_nat size)) (gates s))
    | Prove w =>
        let values := compute w in
        if (length values =? Z.to_nat size)%nat then
          Ok (fresh (length w))
             (mkState (Prove (w ++ map (fun v => v mod p) values)) (gates s))
        else Throw (WitnessLengthMismatch (Z.to_nat size) (length values)) s
    end.

(** Modelled from the spec: [asProver(f)] of the missing
    [core/provable-context] runs [f] in prover mode and does nothing while
    the circuit is compiled.  [f] reads values and may throw. *)
Definition asProver (f : list Z -> option Exn) : Circuit unit :=
  fun s =>
    match mode s with
    | Compile _ => Ok tt s
    | Prove w =>
        match f w with
        | None => Ok tt s
        | Some e => Throw e s
        end
    end.

(** Modelled from the spec: [assertMul(a, b, c)] of the missing
    [gadgets/compatible] enforces [a * b = c]; [x.assertBool()] adds the
    0/1 constraint on [x].  Both are recorded as the equation they assert,
    also when an operand is a constant: the variables and rows into which
    the real [assertMul] breaks its operands are not modelled, so the
    numbering of the variables is the model's own.  The prover run
    modelled is the one that builds the witness without checking it; a
    runner that checks each constraint as it is added raises at the first
    one the witness breaks. *)
Definition assertMul (a b c : Field) : Circuit unit := addConstraint (R1CS a b c).
Definition assertBool (x : Field) : Circuit unit := addConstraint (Boolean x).

(** Modelled from the spec: [x.seal()] fixes a computed expression as a
    single constrained value.  Constants and plain variables are returned
    as they are; any other expression is equated with a fresh variable. *)
Definition seal (x : Field) : Circuit Field :=
  match x with
  | Constant _ | Var _ => ret x
  | _ =>
      vs <- exists_ 1 (fun w => [toBigInt w x]) ;;
      match vs with
      | [v] => addConstraint (Equal x v) ;; ret v
      | _ => throw TypeError
      end
  end.

(** Modelled from the spec: [x.mul(y)] on two field elements.  A constant
    factor scales; two proper expressions need a fresh variable for the
    product and a multiplication constraint. *)
Definition mul (x y : Field) : Circuit Field :=
  match x, y with
  | _, Constant b => ret (scale b x)
  | Constant a, _ => ret (scale a y)
  | _, _ =>
      vs <- exists_ 1 (fun w => [Fp_mul (toBigInt w x) (toBigInt w y)]) ;;
      match vs with
      | [v] => assertMul x y v ;; ret v
      | _ => throw TypeError
      end
  end.

(** [a.and(b)] and [a.not()] of [Bool]. *)
Definition Bool_and (a b : Bool) : Circuit Bool :=
  v <- mul (toField a) (toField b) ;; ret (createBool v).

Definition Bool_not (a : Bool) : Bool :=
  createBool (sub (createField 1) (toField a)).

(** ** The gadgets of [comparison.ts] *)

(** Prove [x <= y] assuming [0 <= x, y < c]. *)
Definition assertLessThanOrEqualGeneric (x y : Field)
    (rangeCheck : Field -> Circuit unit) : Circuit unit :=
  v <- seal (sub y x) ;;
  rangeCheck v.

(** Prove [x < y] assuming [0 <= x, y < c]. *)
Definition assertLessThanGeneric (x y : Field)
    (rangeCheck : Field -> Circuit unit) : Circuit unit :=
  v <- seal (sub (sub y (createField 1)) x) ;;
  rangeCheck v.

(** Check ranges in a prover block. *)
Definition checkRangesAsProver (x y : Field) (c : Z) : Circuit unit :=
  asProver (fun w =>
    let x0 := toBigInt w x in
    let y0 := toBigInt w y in
    if (x0 >=? c) || (y0 >=? c)
    then Some (ComparisonOutOfRange c x0 y0)
    else None).

(** Custom version of [toBits].  [unpack_compute] is the prover callback
    handed to [exists], [unpack_lc] the linear combination of the bits. *)
Definition unpack_compute (x : Field) (length : Z) (w : list Z) : list Z :=
  let x0 := toBigInt w x in
  map (fun k => Z.land (Z.shiftr x0 (Z.of_nat k)) 1) (seq 0 (Z.to_nat length)).

Definition unpack_lc (bits : list Field) : Field :=
  reduce (fun acc b i => add acc (scale (Z.shiftl 1 (Z.of_nat i)) b))
         bits (createField 0).

Definition unpack (x : Field) (length : Z) : Circuit (list Bool) :=
  bits <- exists_ length (unpack_compute x length) ;;
  forEach bits assertBool ;;
  let lc := unpack_lc bits in
  assertMul lc (createField 1) x ;;
  ret (map createBool bits).

(** Custom [isZero].  [isZero_compute] is the prover callback: the
    witnesses [z = 1/x] (or [z = 0] if [x = 0]) and [b = 1 - zx]. *)
Definition isZero_compute (x : Field) (w : list Z) : list Z :=
  let xmy := toBigInt w x in
  let z := match Fp_inverse xmy with Some i => i | None => 0 end in
  let b := Fp_sub 1 (Fp_mul z xmy) in
  [b; z].

Definition isZero (x : Field) : Circuit Bool :=
  bz <- exists_ 2 (isZero_compute x) ;;
  match bz with
  | [b; z] =>
      assertMul b x (createField 0) ;;
      assertMul z x (sub (createField 1) b) ;;
      ret (createBool b)
  | _ => throw TypeError
  end.

Definition any (xs : list Bool) : Circuit Bool :=
  let sum := fold_left (fun a b => add a (toField b)) xs (createField 0) in
  allZero <- isZero sum ;;
  ret (Bool_not allZero).

(** Compare [x] and [y] assuming both have at most [n] bits.  The default
    [n = Fp.sizeInBits - 2] of the source is passed by the caller here,
    and [n] is an integer: [BigInt(n)] refuses any other number.  For
    [n = -1] there is no wire [zBits[n]] and the call of [and] on
    [undefined] throws; for [n <= -2] the size [n + 1] handed on to
    [exists] is negative. *)
Definition compareCompatible (x y : Field) (n : Z) : Circuit (Bool * Bool) :=
  let maxLength := Fp_sizeInBits - 2 in
  assert (n <=? maxLength) (BitLengthTooLarge maxLength) ;;
  let c := Z.shiftl 1 n in
  checkRangesAsProver x y c ;;
  let z := sub (add (createField c) y) x in
  zBits <- unpack z (n + 1) ;;
  let lessOrEqual := index zBits n in
  let prefix := slice0 zBits n in
  notAllZeros <- any prefix ;;
  match lessOrEqual with
  | Some lessOrEqual =>
      less <- Bool_and lessOrEqual notAllZeros ;;
      ret (lessOrEqual, less)
  | None => throw TypeError
  end.

(** A range check for [[0, 2^k)] made of [unpack], to show that what the
    comparators expect of [rangeCheck] can be met. *)
Definition rangeCheck_bits (k : Z) (v : Field) : Circuit unit :=
  unpack v k ;; ret tt.

(** ** What a run leaves behind

    The state after a gadget, written out: the mode after [k] fresh
    variables, and the constraints each gadget appends. *)

Definition allocate (m : Mode) (k : nat) (compute : list Z -> list Z) : Mode :=
  match m with
  | Compile n => Compile (n + k)
  | Prove w => Prove (w ++ map (fun v => v mod p) (compute w))
  end.

Definition fresh (n k : nat) : list Field := map Var (seq n k).

Definition isZero_gates (n : nat) (x : Field) : list Constraint :=
  [ R1CS (Var n) x (createField 0);
    R1CS (Var (S n)) x (sub (createField 1) (Var n)) ].

Definition unpack_gates (n k : nat) (x : Field) : list Constraint :=
  map Boolean (fresh n k) ++ [R1CS (unpack_lc (fresh n k)) (createField 1) x].

Definition any_sum (xs : list Bool) : Field :=
  fold_left (fun a b => add a (toField b)) xs (createField 0).

(** The value a sound zero test must return. *)
Definition zero_flag (v : Z) : Z := if v =? 0 then 1 else 0.

(** [rho] with the variables from [n] on replaced by [vals]. *)
Definition extend (rho : env) (n : nat) (vals : list Z) : env :=
  fun i => if (i <? n)%nat then rho i else nth (i - n) vals 0.

(** The weighted sum of a bit sequence, least significant bit first. *)
Fixpoint weighted_sum (i0 : nat) (vals : list Z) : Z :=
  match vals with
  | [] => 0
  | v :: vs => 2 ^ Z.of_nat i0 * v + weighted_sum (S i0) vs
  end.

(** The stations of [compareCompatible]: the value [z = 2^n + y - x], the
    wires returned by [unpack], and the states after [unpack], after [any]
    and after the final [and]. *)
Definition compare_z (x y : Field) (n : Z) : Field :=
  sub (add (createField (Z.shiftl 1 n)) y) x.

Definition compare_bits (n0 : nat) (n : Z) : list Bool :=
  map createBool (fresh n0 (Z.to_nat (n + 1))).

Definition compare_state1 (s : State) (x y : Field) (n : Z) : State :=
  mkState (allocate (mode s) (Z.to_nat (n + 1)) (unpack_compute (compare_z x y n) (n + 1)))
          (gates s ++ unpack_gates (next_var s) (Z.to_nat (n + 1)) (compare_z x y n)).

Definition compare_state2 (s : State) (x y : Field) (n : Z) : State :=
  let s1 := compare_state1 s x y n in
  let prefix := slice0 (compare_bits (next_var s) n) n in
  mkState (allocate (mode s1) 2 (isZero_compute (any_sum prefix)))
          (gates s1 ++ isZero_gates (next_var s1) (any_sum prefix)).

Definition compare_state3 (s : State) (x y : Field) (n : Z) : State :=
  let s2 := compare_state2 s x y n in
  let lessOrEqual := Var (next_var s + Z.to_nat n) in
  let notAllZeros := toField (Bool_not (createBool (Var (next_var (compare_state1 s x y n))))) in
  mkState (allocate (mode s2) 1
             (fun w => [Fp_mul (toBigInt w lessOrEqual) (toBigInt w notAllZeros)]))
          (gates s2 ++ [R1CS lessOrEqual notAllZeros (Var (next_var s2))]).

(** All that [compareCompatible] appends when it starts with [n0]
    variables: the constraints of [unpack], those of [any] on the low [n]
    bits, and the multiplication behind the final [and]. *)
Definition compare_prefix (n0 : nat) (n : Z) : list Bool :=
  map createBool (fresh n0 (Z.to_nat n)).

Definition compare_gates (n0 : nat) (x y : Field) (n : Z) : list Constraint :=
  let k := Z.to_nat (n + 1) in
  unpack_gates n0 k (compare_z x y n) ++
  isZero_gates (n0 + k) (any_sum (compare_prefix n0 n)) ++
  [ R1CS (Var (n0 + Z.to_nat n))
         (toField (Bool_not (createBool (Var (n0 + k)))))
         (Var (n0 + k + 2)) ].

(** All variables of a constraint are among the first [n]. *)
Definition wf_gate (n : nat) (g : Constraint) : Prop :=
  match g with
  | Boolean x => wf n x
  | Equal x y => wf n x /\ wf n y
  | R1CS a b c => wf n a /\ wf n b /\ wf n c
  end.

(** The truth value of a comparison as a field element. *)
Definition flag (b : bool) : Z := if b then 1 else 0.

Definition sum_values (vals : list Z) : Z := fold_right Z.add 0 vals.

(** The values of a sequence of wires, and what it means to be a bit. *)
Definition values (rho : env) (xs : list Bool) : list Z :=
  map (fun b => eval rho (toField b)) xs.

Definition is_bit (v : Z) : Prop := v = 0 \/ v = 1.

(** What [seal x], run in [s], returns and leaves behind: a value [v] in
    the state [s'] with the constraints [new] appended, which hold only if
    [v] equals [x], and which can be met, for good, by giving the fresh
    variables their values. *)
Definition sealed (x : Field) (s : State) (v : Field) (s' : State)
    (new : list Constraint) : Prop :=
  seal x s = Ok v s' /\
  gates s' = gates s ++ new /\
  inProver s' = inProver s /\
  (next_var s <= next_var s')%nat /\
  wf (next_var s') v /\
  (forall rho, satisfies rho new -> eval rho v = eval rho x) /\
  (forall rho, exists rho1,
     agree (next_var s) rho rho1 /\
     eval rho1 v = eval rho x /\
     forall rho', agree (next_var s') rho1 rho' -> satisfies rho' new).

(** What the comparators expect of the caller's [rangeCheck]: run in
    compile or prover mode as [prover] says, it returns and appends
    constraints that are satisfiable exactly by the values in [0, c). *)
Definition asserts_range (rangeCheck : Field -> Circuit unit) (c : Z)
    (prover : bool) : Prop :=
  forall v s,
    inProver s = prover -> wf (next_var s) v ->
    exists s' new,
      rangeCheck v s = Ok tt s' /\
      gates s' = gates s ++ new /\
      forall rho, satisfiable_from (next_var s) rho new <-> 0 <= eval rho v < c.

(** A wire has an explicit 0/1 constraint among [gs]. *)
Definition explicitly_boolean (b : Bool) (gs : list Constraint) : Prop :=
  In (Boolean (toField b)) gs.

Definition is_boolean_gate (g : Constraint) : bool :=
  match g with
  | Boolean _ => true
  | _ => false
  end.

(** The statement that every boolean wire handed out by the gadgets has
    an explicit 0/1 constraint among the constraints of the final state. *)
Definition every_wire_explicitly_boolean : Prop :=
  (forall x len s bits s',
     unpack x len s = Ok bits s' ->
     Forall (fun b => explicitly_boolean b (gates s')) bits) /\
  (forall x s b s',
     isZero x s = Ok b s' -> explicitly_boolean b (gates s')) /\
  (forall xs s b s',
     any xs s = Ok b s' -> explicitly_boolean b (gates s')) /\
  (forall x y n s lessOrEqual less s',
     compareCompatible x y n s = Ok (lessOrEqual, less) s' ->
     explicitly_boolean lessOrEqual (gates s') /\
     explicitly_boolean less (gates s')).


(** In prover mode, on inputs valued [x0] and [y0], [compareCompatible]
    with bit length [n] returns wires valued [le] and [lt]. *)
Definition compares_to (x0 y0 n le lt : Z) : Prop :=
  forall (x y : Field) (s : State) (w : list Z),
    mode s = Prove w ->
    wf (length w) x -> wf (length w) y ->
    eval (lookup w) x = x0 -> eval (lookup w) y = y0 ->
    exists lessOrEqual less s' w',
      compareCompatible x y n s = Ok (lessOrEqual, less) s' /\
      mode s' = Prove w' /\
      eval (lookup w') (toField lessOrEqual) = le /\
      eval (lookup w') (toField less) = lt.

(** A prover run of [compareCompatible] on two witness variables valued
    [x0] and [y0]: the values of the wires [lessOrEqual] and [less] it
    returns. *)
Definition compare_values (x0 y0 n : Z) : option (Z * Z) :=
  match compareCompatible (Var 0) (Var 1) n (mkState (Prove [x0; y0]) []) with
  | Ok (lessOrEqual, less) s' =>
      match mode s' with
      | Prove w =>
          Some (eval (lookup w) (toField lessOrEqual),
                eval (lookup w) (toField less))
      | Compile _ => None
      end
  | Throw _ _ => None
  end.

(** ** Basic facts *)

Hypothesis p_prime : Z.prime p.

Lemma p_gt_1 : 1 < p.
Proof. pose proof (Z.prime_ge_2 p p_prime). lia. Qed.

Lemma eval_range rho v : 0 <= eval rho v < p.
Proof.
  pose proof p_gt_1.
  destruct v; simpl; unfold Fp_add, Fp_mul; apply Z.mod_pos_bound; lia.
Qed.

Lemma eval_mod rho v : eval rho v mod p = eval rho v.
Proof. apply Z.mod_small, eval_range. Qed.

Lemma eval_createField rho c : eval rho (createField c) = c mod p.
Proof. simpl. apply Z.mod_mod. pose proof p_gt_1; lia. Qed.

Lemma eval_add rho x y : eval rho (add x y) = (eval rho x + eval rho y) mod p.
Proof.
  pose proof p_gt_1.
  destruct x, y; simpl; unfold Fp_add; try reflexivity.
  rewrite Z.mod_mod by lia. apply Z.add_mod; lia.
Qed.

Lemma eval_neg rho x : eval rho (neg x) = (- eval rho x) mod p.
Proof.
  pose proof p_gt_1.
  destruct x; simpl; unfold Fp_sub, Fp_mul.
  - rewrite Z.mod_mod by lia. rewrite <- (Z.sub_0_l (c mod p)).
    rewrite Zminus_mod_idemp_r. reflexivity.
  - rewrite Z.mul_mod_idemp_l by lia. f_equal; lia.
  - rewrite Z.mul_mod_idemp_l by lia. f_equal; lia.
  - rewrite Z.mul_mod_idemp_l by lia. f_equal; lia.
Qed.

Lemma eval_sub rho x y : eval rho (sub x y) = (eval rho x - eval rho y) mod p.
Proof.
  unfold sub. rewrite eval_add, eval_neg.
  rewrite Zplus_mod_idemp_r. f_equal; lia.
Qed.

Lemma eval_scale rho c x : eval rho (scale c x) = (c * eval rho x) mod p.
Proof.
  pose proof p_gt_1.
  destruct x; simpl; unfold Fp_mul;
    try (rewrite Z.mul_mod_idemp_l by lia; reflexivity).
  rewrite Z.mod_mod by lia. rewrite Z.mul_mod_idemp_r by lia.
  f_equal; lia.
Qed.

Lemma eval_agree n rho rho' v : wf n v -> agree n rho rho' -> eval rho' v = eval rho v.
Proof.
  intros Hwf Hag. induction v; simpl in *.
  - reflexivity.
  - rewrite Hag by assumption. reflexivity.
  - destruct Hwf. rewrite IHv1, IHv2 by assumption. reflexivity.
  - rewrite IHv by assumption. reflexivity.
Qed.

Lemma wf_mono n m v : (n <= m)%nat -> wf n v -> wf m v.
Proof. intros Hle. induction v; simpl; intuition lia. Qed.

Lemma wf_add n x y : wf n x -> wf n y -> wf n (add x y).
Proof. destruct x, y; simpl; intuition. Qed.

Lemma wf_neg n x : wf n x -> wf n (neg x).
Proof. destruct x; simpl; intuition. Qed.

Lemma wf_sub n x y : wf n x -> wf n y -> wf n (sub x y).
Proof. intros; apply wf_add; [assumption | apply wf_neg; assumption]. Qed.

Lemma wf_scale n c x : wf n x -> wf n (scale c x).
Proof. destruct x; simpl; intuition. Qed.

Lemma agree_refl n rho : agree n rho rho.
Proof. intros i _. reflexivity. Qed.

Lemma agree_trans n m rho1 rho2 rho3 :
  (n <= m)%nat -> agree n rho1 rho2 -> agree m rho2 rho3 -> agree n rho1 rho3.
Proof. intros Hle H12 H23 i Hi. rewrite H23 by lia. apply H12; assumption. Qed.

Lemma small_multiple a : 0 <= a < p -> (p | a) -> a = 0.
Proof.
  intros Ha Hd. pose proof p_gt_1.
  apply Z.mod_divide in Hd; [|lia]. rewrite Z.mod_small in Hd; assumption.
Qed.

(** Over a prime field a value is its own square only if it is 0 or 1. *)
Lemma boolean_values b : 0 <= b < p -> Fp_mul b b = b -> b = 0 \/ b = 1.
Proof.
  intros Hb Hsq. pose proof p_gt_1. unfold Fp_mul in Hsq.
  assert (Hdiv : (p | b * (b - 1))).
  { apply Z.mod_divide; [lia|].
    replace (b * (b - 1)) with (b * b - b) by ring.
    rewrite Zminus_mod, Hsq, (Z.mod_small b p) by lia.
    rewrite Z.sub_diag. apply Z.mod_0_l; lia. }
  apply (Z.divide_prime_mul _ _ _ p_prime) in Hdiv.
  destruct Hdiv as [Hd | Hd].
  - left. apply small_multiple; assumption.
  - destruct (Z.eq_dec b 0) as [-> | Hnz]; [left; reflexivity | right].
    apply small_multiple in Hd; lia.
Qed.

(** A field has no zero divisors. *)
Lemma Fp_mul_zero a b : 0 <= a < p -> 0 <= b < p -> Fp_mul a b = 0 -> a = 0 \/ b = 0.
Proof.
  intros Ha Hb Hz. pose proof p_gt_1. unfold Fp_mul in Hz.
  apply Z.mod_divide in Hz; [|lia].
  apply (Z.divide_prime_mul _ _ _ p_prime) in Hz.
  destruct Hz as [Hd | Hd]; [left | right]; apply small_multiple; assumption.
Qed.

(** ** Running the runtime primitives *)

Lemma exists_run size compute s :
  0 <= size ->
  (forall w, length (compute w) = Z.to_nat size) ->
  exists_ size compute s =
    Ok (fresh (next_var s) (Z.to_nat size))
       (mkState (allocate (mode s) (Z.to_nat size) compute) (gates s)).
Proof.
  intros Hsize Hlen. unfold exists_, next_var, allocate, fresh.
  destruct (Z.ltb_spec size 0); [lia|].
  destruct (mode s) as [n | w]; [reflexivity|].
  rewrite Hlen, Nat.eqb_refl. reflexivity.
Qed.

Lemma next_var_allocate s k compute g :
  (forall w, length (compute w) = k) ->
  next_var (mkState (allocate (mode s) k compute) g) = (next_var s + k)%nat.
Proof.
  intros Hlen. unfold next_var, allocate; simpl.
  destruct (mode s); simpl; [reflexivity|].
  rewrite length_app, length_map, Hlen. reflexivity.
Qed.

Lemma lookup_app_l w vals i : (i < length w)%nat -> lookup (w ++ vals) i = lookup w i.
Proof. intros Hi. unfold lookup. apply app_nth1; assumption. Qed.

Lemma lookup_app_r w vals i : lookup (w ++ vals) (length w + i)%nat = nth i vals 0.
Proof.
  unfold lookup. rewrite app_nth2 by lia. f_equal; lia.
Qed.

Lemma agree_lookup_app w vals : agree (length w) (lookup w) (lookup (w ++ vals)).
Proof. intros i Hi. apply lookup_app_l; assumption. Qed.

Lemma extend_agree rho n vals : agree n rho (extend rho n vals).
Proof.
  intros i Hi. unfold extend.
  destruct (Nat.ltb_spec i n); [reflexivity | lia].
Qed.

Lemma extend_at rho n vals i : extend rho n vals (n + i)%nat = nth i vals 0.
Proof.
  unfold extend. destruct (Nat.ltb_spec (n + i)%nat n); [lia|].
  f_equal; lia.
Qed.

(** ** [isZero] *)

Lemma isZero_run x s :
  isZero x s =
    Ok (createBool (Var (next_var s)))
       (mkState (allocate (mode s) 2 (isZero_compute x))
                (gates s ++ isZero_gates (next_var s) x)).
Proof.
  unfold isZero, bind. rewrite exists_run by (reflexivity || lia).
  simpl. unfold assertMul, addConstraint, ret; simpl.
  rewrite <- app_assoc. reflexivity.
Qed.

(** The two multiplication constraints pin the flag down. *)
Lemma isZero_forced rho n x :
  satisfies rho (isZero_gates n x) -> eval rho (Var n) = zero_flag (eval rho x).
Proof.
  intros Hsat. pose proof p_gt_1 as Hp.
  unfold satisfies, isZero_gates in Hsat.
  rewrite !Forall_cons_iff in Hsat. destruct Hsat as (H1 & H2 & _).
  cbv [holds] in H1, H2.
  rewrite eval_createField in H1. rewrite eval_sub, eval_createField in H2.
  rewrite Z.mod_0_l in H1 by lia.
  pose proof (eval_range rho (Var n)) as Hb.
  pose proof (eval_range rho x) as Hx.
  unfold zero_flag. destruct (Z.eqb_spec (eval rho x) 0) as [Hx0 | Hx0].
  - rewrite Hx0 in H2. unfold Fp_mul in H2.
    rewrite Z.mul_0_r, Z.mod_0_l in H2 by lia.
    rewrite (Z.mod_small 1 p) in H2 by lia.
    symmetry in H2. apply Z.mod_divide in H2; [|lia].
    destruct (Z.eq_dec (eval rho (Var n)) 0) as [E | E].
    + exfalso. rewrite E, Z.sub_0_r in H2.
      apply Z.divide_pos_le in H2; lia.
    + assert (Hd : (p | eval rho (Var n) - 1)).
      { destruct H2 as [k Hk]. exists (- k). lia. }
      apply small_multiple in Hd; lia.
  - apply Fp_mul_zero in H1; [lia | assumption | assumption].
Qed.

(** The values the prover computes satisfy them. *)
Lemma isZero_complete rho n x v b z :
  0 <= v < p ->
  eval rho x = v ->
  b = Fp_sub 1 (Fp_mul (match Fp_inverse v with Some i => i | None => 0 end) v) ->
  z = match Fp_inverse v with Some i => i | None => 0 end ->
  eval rho (Var n) = b -> eval rho (Var (S n)) = z mod p ->
  satisfies rho (isZero_gates n x) /\ b = zero_flag v.
Proof.
  intros Hv Hx Hb Hz Hbn Hzn. pose proof p_gt_1 as Hp.
  assert (Hflag : b = zero_flag v /\ Fp_mul (z mod p) v = Fp_sub 1 b).
  { unfold zero_flag, Fp_inverse in *.
    rewrite (Z.mod_small v p) in * by lia.
    destruct (Z.eqb_spec v 0) as [-> | Hnz].
    - subst z b. unfold Fp_sub, Fp_mul. simpl.
      rewrite Z.mod_0_l by lia. simpl. rewrite (Z.mod_small 1 p) by lia.
      split; [reflexivity|]. simpl. rewrite Z.mod_0_l by lia. reflexivity.
    - assert (Hinv : (Z.invmod v p * v) mod p = 1).
      { apply Z.invmod_prime; [assumption|]. rewrite Z.mod_small; lia. }
      subst z b. unfold Fp_sub, Fp_mul.
      rewrite Z.mul_mod_idemp_l by lia. rewrite Hinv.
      simpl. rewrite Z.mod_0_l by lia. split; [reflexivity|].
      simpl. rewrite Z.mod_small; lia. }
  destruct Hflag as [Hflag Hmul]. split; [|assumption].
  unfold isZero_gates, satisfies.
  repeat constructor; unfold holds.
  - rewrite eval_createField, Hbn, Hx, Z.mod_0_l by lia.
    rewrite Hflag. unfold zero_flag, Fp_mul.
    destruct (Z.eqb_spec v 0) as [-> | Hnz].
    + rewrite Z.mul_0_r. apply Z.mod_0_l; lia.
    + rewrite Z.mul_0_l. apply Z.mod_0_l; lia.
  - rewrite eval_sub, eval_createField, Hzn, Hx, Hbn, Hmul.
    unfold Fp_sub. rewrite Zminus_mod_idemp_l. reflexivity.
Qed.

(** Assignments that agree everywhere cannot be told apart. *)
Lemma eval_ext rho rho' v : (forall i, rho' i = rho i) -> eval rho' v = eval rho v.
Proof.
  intros Hext. induction v; simpl; congruence.
Qed.

Lemma agree_snapshot n rho : agree n rho (lookup (map rho (seq 0 n))).
Proof.
  intros i Hi. unfold lookup.
  rewrite (nth_indep _ 0 (rho 0%nat)) by (rewrite length_map, length_seq; lia).
  rewrite map_nth, seq_nth by lia. reflexivity.
Qed.

Lemma holds_ext rho rho' g : (forall i, rho' i = rho i) -> holds rho g -> holds rho' g.
Proof.
  intros Hext. destruct g; simpl; rewrite !(eval_ext rho rho') by assumption; trivial.
Qed.

Lemma satisfies_ext rho rho' gs :
  (forall i, rho' i = rho i) -> satisfies rho gs -> satisfies rho' gs.
Proof.
  intros Hext Hsat. eapply Forall_impl; [|exact Hsat].
  intros g. apply holds_ext; assumption.
Qed.

Lemma lookup_app_extend w vals i :
  lookup (w ++ vals) i = extend (lookup w) (length w) vals i.
Proof.
  unfold extend. destruct (Nat.ltb_spec i (length w)).
  - apply lookup_app_l; assumption.
  - replace i with (length w + (i - length w))%nat at 1 by lia.
    apply lookup_app_r.
Qed.

Lemma satisfies_app rho gs1 gs2 :
  satisfies rho (gs1 ++ gs2) <-> satisfies rho gs1 /\ satisfies rho gs2.
Proof. apply Forall_app. Qed.

(** Extending any assignment by the values of [isZero_compute] satisfies
    the constraints of [isZero] and sets the flag as intended. *)
Lemma isZero_extend rho n x (w : list Z) :
  wf n x ->
  eval (lookup w) x = eval rho x ->
  let rho' := extend rho n (map (fun v => v mod p) (isZero_compute x w)) in
  satisfies rho' (isZero_gates n x) /\
  eval rho' (Var n) = zero_flag (eval rho x).
Proof.
  intros Hwf Hw rho'. pose proof p_gt_1 as Hp.
  assert (Hx : eval rho' x = eval rho x).
  { apply (eval_agree n); [assumption | apply extend_agree]. }
  set (v := eval rho x) in *.
  set (z := match Fp_inverse v with Some i => i | None => 0 end).
  set (b := Fp_sub 1 (Fp_mul z v)).
  assert (Hb : eval rho' (Var n) = b).
  { pose proof (extend_at rho n (map (fun v => v mod p) (isZero_compute x w)) 0) as E.
    rewrite Nat.add_0_r in E. simpl. unfold rho'. rewrite E.
    unfold isZero_compute, toBigInt. rewrite Hw. simpl.
    rewrite Z.mod_mod by lia. unfold b, Fp_sub. apply Z.mod_mod; lia. }
  assert (Hz : eval rho' (Var (S n)) = z mod p).
  { pose proof (extend_at rho n (map (fun v => v mod p) (isZero_compute x w)) 1) as E.
    rewrite Nat.add_1_r in E. simpl. unfold rho'. rewrite E.
    unfold isZero_compute, toBigInt. rewrite Hw. simpl.
    apply Z.mod_mod; lia. }
  destruct (isZero_complete rho' n x v b z) as [Hsat Hflag];
    try reflexivity; try assumption.
  - apply eval_range.
  - split; [assumption | congruence].
Qed.

Lemma isZero_satisfiable rho n x :
  wf n x -> satisfiable_from n rho (isZero_gates n x).
Proof.
  intros Hwf. eexists. split; [apply extend_agree|].
  apply (isZero_extend rho n x (map rho (seq 0 n))); [assumption|].
  apply (eval_agree n); [assumption | apply agree_snapshot].
Qed.

Lemma isZero_prover w x :
  wf (length w) x ->
  let w' := w ++ map (fun v => v mod p) (isZero_compute x w) in
  satisfies (lookup w') (isZero_gates (length w) x) /\
  eval (lookup w') (Var (length w)) = zero_flag (eval (lookup w) x).
Proof.
  intros Hwf w'.
  destruct (isZero_extend (lookup w) (length w) x w Hwf eq_refl) as [Hsat Hflag].
  split.
  - eapply satisfies_ext; [|exact Hsat]. intros i. apply lookup_app_extend.
  - rewrite <- Hflag. apply eval_ext. intros i. apply lookup_app_extend.
Qed.

(** C5: [isZero(x)] returns the wire [b]; the constraints it emits are
    [b * x = 0] and [z * x = 1 - b]; every assignment satisfying them gives
    [b] the value 1 if [x] is 0 and the value 0 otherwise; whatever the
    values of the earlier variables, the two constraints can be satisfied;
    and in prover mode the witness values computed for [b] and [z] satisfy
    them, so [b] carries that value. *)
Theorem isZero_correct (x : Field) (s : State) :
  wf (next_var s) x ->
  exists b s',
    isZero x s = Ok b s' /\
    gates s' = gates s ++ isZero_gates (next_var s) x /\
    (forall rho, satisfies rho (isZero_gates (next_var s) x) ->
       eval rho (toField b) = zero_flag (eval rho x)) /\
    (forall rho, satisfiable_from (next_var s) rho (isZero_gates (next_var s) x)) /\
    (forall w, mode s = Prove w ->
       exists w', mode s' = Prove w' /\
         satisfies (lookup w') (isZero_gates (next_var s) x) /\
         eval (lookup w') (toField b) = zero_flag (eval (lookup w) x)).
Proof.
  intros Hwf. eexists; eexists. split; [apply isZero_run|].
  split; [reflexivity|]. cbn [toField]. split; [|split].
  - intros rho Hsat. apply isZero_forced in Hsat. exact Hsat.
  - intros rho. apply isZero_satisfiable; assumption.
  - intros w Hmode. unfold next_var in *. rewrite Hmode in *.
    cbn [mode allocate]. eexists. split; [reflexivity|].
    apply isZero_prover; assumption.
Qed.

(** ** [any] *)

Lemma any_run xs s :
  any xs s =
    Ok (Bool_not (createBool (Var (next_var s))))
       (mkState (allocate (mode s) 2 (isZero_compute (any_sum xs)))
                (gates s ++ isZero_gates (next_var s) (any_sum xs))).
Proof.
  unfold any, bind. fold (any_sum xs). rewrite isZero_run. reflexivity.
Qed.

Lemma eval_fold_add rho xs acc :
  eval rho (fold_left (fun a b => add a (toField b)) xs acc) =
  (eval rho acc + sum_values (values rho xs)) mod p.
Proof.
  pose proof p_gt_1 as Hp. revert acc.
  induction xs as [| b xs IH]; intros acc; simpl.
  - rewrite Z.add_0_r. symmetry. apply eval_mod.
  - rewrite IH, eval_add. rewrite Zplus_mod_idemp_l. f_equal; lia.
Qed.

Lemma eval_any_sum rho xs :
  eval rho (any_sum xs) = sum_values (values rho xs) mod p.
Proof.
  pose proof p_gt_1 as Hp.
  unfold any_sum. rewrite eval_fold_add, eval_createField.
  rewrite Z.mod_0_l by lia. reflexivity.
Qed.

Lemma wf_any_sum n xs :
  Forall (fun b => wf n (toField b)) xs -> wf n (any_sum xs).
Proof.
  unfold any_sum. generalize (createField 0), (I : wf n (createField 0)).
  induction xs as [| b xs IH]; intros acc Hacc Hall; simpl.
  - assumption.
  - inversion Hall; subst. apply IH; [apply wf_add|]; assumption.
Qed.

Lemma sum_values_bounds vals :
  Forall is_bit vals -> 0 <= sum_values vals <= Z.of_nat (length vals).
Proof.
  induction 1 as [| v vs Hv _ IH]; simpl; [lia|].
  destruct Hv; subst; lia.
Qed.

Lemma sum_values_positive vals :
  Forall is_bit vals -> (sum_values vals <> 0 <-> Exists (fun v => v = 1) vals).
Proof.
  induction 1 as [| v vs Hv Hvs IH]; simpl.
  - split; [lia | intros H; inversion H].
  - pose proof (sum_values_bounds vs Hvs). rewrite Exists_cons.
    destruct Hv; subst.
    + rewrite Z.add_0_l, IH. split; [intros; right; assumption|].
      intros [? | ?]; [lia | assumption].
    + split; [intros; left; reflexivity | lia].
Qed.

Lemma eval_Bool_not rho b :
  eval rho (toField (Bool_not b)) = (1 - eval rho (toField b)) mod p.
Proof.
  unfold Bool_not. cbn [toField]. rewrite eval_sub, eval_createField.
  rewrite Zminus_mod_idemp_l. reflexivity.
Qed.

(** What the constraints of [any] force, given 0/1 inputs that are fewer
    than [p]. *)
Lemma any_forced rho n xs :
  Z.of_nat (length xs) < p ->
  Forall is_bit (values rho xs) ->
  satisfies rho (isZero_gates n (any_sum xs)) ->
  let r := eval rho (toField (Bool_not (createBool (Var n)))) in
  is_bit r /\ (r = 1 <-> Exists (fun v => v = 1) (values rho xs)).
Proof.
  intros Hlen Hbits Hsat r. pose proof p_gt_1 as Hp.
  apply isZero_forced in Hsat.
  pose proof (sum_values_bounds _ Hbits) as Hb.
  assert (Hl : length (values rho xs) = length xs) by apply length_map.
  rewrite Hl in Hb.
  assert (Hr : r = 1 - zero_flag (sum_values (values rho xs))).
  { unfold r. rewrite eval_Bool_not. cbn [toField]. rewrite Hsat.
    rewrite eval_any_sum, (Z.mod_small (sum_values _)) by lia.
    unfold zero_flag. destruct (_ =? 0); apply Z.mod_small; lia. }
  rewrite <- sum_values_positive by assumption.
  rewrite Hr. unfold zero_flag, is_bit.
  destruct (Z.eqb_spec (sum_values (values rho xs)) 0); lia.
Qed.

Lemma values_agree n rho rho' xs :
  Forall (fun b => wf n (toField b)) xs -> agree n rho rho' ->
  values rho' xs = values rho xs.
Proof.
  intros Hwf Hag. unfold values. apply map_ext_in. intros b Hb.
  rewrite Forall_forall in Hwf. apply (eval_agree n); auto.
Qed.

(** C6: [any(bits)] returns the negation of the zero test of the sum of
    the bits.  For a sequence of fewer than [p] wires (no array holds as
    many as [p] elements) that are all valued 0 or 1, every assignment
    satisfying the emitted constraints gives the result a value in {0,1}
    that is 1 exactly when some bit is 1, hence 0 for the empty and for
    the all-zero sequence; the constraints are always satisfiable, and in
    prover mode the computed witness satisfies them and the result has
    that value. *)
Theorem any_correct (xs : list Bool) (s : State) :
  Z.of_nat (length xs) < p ->
  Forall (fun b => wf (next_var s) (toField b)) xs ->
  exists r s',
    any xs s = Ok r s' /\
    gates s' = gates s ++ isZero_gates (next_var s) (any_sum xs) /\
    (forall rho,
       Forall is_bit (values rho xs) ->
       satisfies rho (isZero_gates (next_var s) (any_sum xs)) ->
       is_bit (eval rho (toField r)) /\
       (eval rho (toField r) = 1 <-> Exists (fun v => v = 1) (values rho xs)) /\
       (Forall (fun v => v = 0) (values rho xs) -> eval rho (toField r) = 0)) /\
    (forall rho,
       satisfiable_from (next_var s) rho (isZero_gates (next_var s) (any_sum xs))) /\
    (forall w,
       mode s = Prove w ->
       Forall is_bit (values (lookup w) xs) ->
       exists w',
         mode s' = Prove w' /\
         satisfies (lookup w') (isZero_gates (next_var s) (any_sum xs)) /\
         is_bit (eval (lookup w') (toField r)) /\
         (eval (lookup w') (toField r) = 1 <->
          Exists (fun v => v = 1) (values (lookup w) xs))).
Proof.
  intros Hlen Hwf. pose proof (wf_any_sum _ _ Hwf) as Hsum.
  eexists; eexists. split; [apply any_run|].
  split; [reflexivity|]. split; [|split].
  - intros rho Hbits Hsat.
    destruct (any_forced rho (next_var s) xs Hlen Hbits Hsat) as [Hb Hiff].
    split; [exact Hb|]. split; [exact Hiff|].
    intros Hzero. destruct Hb as [Hb | Hb]; [exact Hb | exfalso].
    apply Hiff in Hb. rewrite Exists_exists in Hb. destruct Hb as (v & Hin & Hv).
    rewrite Forall_forall in Hzero. specialize (Hzero v Hin). lia.
  - intros rho. apply isZero_satisfiable; assumption.
  - intros w Hmode Hbits. unfold next_var in *. rewrite Hmode in *.
    cbn [mode allocate]. eexists. split; [reflexivity|].
    destruct (isZero_prover w (any_sum xs) Hsum) as [Hsat _].
    split; [exact Hsat|].
    set (w' := w ++ _) in *.
    assert (Hv : values (lookup w') xs = values (lookup w) xs).
    { apply (values_agree (length w)); [assumption | apply agree_lookup_app]. }
    rewrite <- Hv in Hbits |- *.
    apply (any_forced _ (length w) xs Hlen Hbits Hsat).
Qed.

(** ** [unpack] *)

Lemma forEach_assertBool_run bits s :
  forEach bits assertBool s = Ok tt (mkState (mode s) (gates s ++ map Boolean bits)).
Proof.
  revert s. induction bits as [| b bits IH]; intros s; simpl.
  - unfold ret. rewrite app_nil_r. destruct s; reflexivity.
  - unfold bind, assertBool, addConstraint. rewrite IH. simpl.
    rewrite <- app_assoc. reflexivity.
Qed.

Lemma unpack_compute_length x len w :
  length (unpack_compute x len w) = Z.to_nat len.
Proof. unfold unpack_compute. rewrite length_map, length_seq. reflexivity. Qed.

Lemma unpack_run x len s :
  0 <= len ->
  unpack x len s =
    Ok (map createBool (fresh (next_var s) (Z.to_nat len)))
       (mkState (allocate (mode s) (Z.to_nat len) (unpack_compute x len))
                (gates s ++ unpack_gates (next_var s) (Z.to_nat len) x)).
Proof.
  intros Hlen. unfold unpack, bind.
  rewrite exists_run by (assumption || (intros; apply unpack_compute_length)).
  rewrite forEach_assertBool_run. simpl.
  unfold assertMul, addConstraint, ret, unpack_gates. simpl.
  rewrite <- app_assoc. reflexivity.
Qed.

(** The bits of a number, recombined, are the number modulo a power of two. *)
Lemma weighted_sum_bits x0 i0 k :
  weighted_sum i0
    (map (fun j => Z.land (Z.shiftr x0 (Z.of_nat j)) 1) (seq i0 k)) =
  2 ^ Z.of_nat i0 * ((x0 / 2 ^ Z.of_nat i0) mod 2 ^ Z.of_nat k).
Proof.
  revert i0. induction k as [| k IH]; intros i0.
  - simpl. rewrite Z.mod_1_r. lia.
  - cbn [seq map weighted_sum]. rewrite IH.
    change 1 with (Z.ones 1) at 1. rewrite Z.land_ones by lia.
    rewrite Z.shiftr_div_pow2 by lia.
    rewrite !Nat2Z.inj_succ, !Z.pow_succ_r by lia.
    rewrite (Z.rem_mul_r _ 2 (2 ^ Z.of_nat k)) by lia.
    rewrite Z.div_div by lia.
    rewrite (Z.mul_comm (2 ^ Z.of_nat i0) 2). change (2 ^ 1) with 2. ring.
Qed.

Lemma weighted_sum_bounds i0 vals :
  Forall is_bit vals ->
  0 <= weighted_sum i0 vals <= 2 ^ Z.of_nat i0 * (2 ^ Z.of_nat (length vals) - 1).
Proof.
  intros Hbits. revert i0.
  induction Hbits as [| v vs Hv _ IH]; intros i0; cbn [weighted_sum length].
  - simpl. lia.
  - specialize (IH (S i0)).
    rewrite !Nat2Z.inj_succ, !Z.pow_succ_r in * by lia.
    assert (0 < 2 ^ Z.of_nat i0) by (apply Z.pow_pos_nonneg; lia).
    assert (0 < 2 ^ Z.of_nat (length vs)) by (apply Z.pow_pos_nonneg; lia).
    destruct Hv; subst; nia.
Qed.

Lemma eval_reduce_lc rho bits i0 acc :
  eval rho
    (reduce_from (fun acc b i => add acc (scale (Z.shiftl 1 (Z.of_nat i)) b))
                 i0 bits acc) =
  (eval rho acc + weighted_sum i0 (map (eval rho) bits)) mod p.
Proof.
  pose proof p_gt_1 as Hp. revert i0 acc.
  induction bits as [| b bits IH]; intros i0 acc; cbn [reduce_from map weighted_sum].
  - rewrite Z.add_0_r. symmetry. apply eval_mod.
  - rewrite IH, eval_add, eval_scale.
    rewrite Z.shiftl_1_l.
    rewrite Zplus_mod_idemp_l.
    rewrite (Z.add_comm (eval rho acc)), <- Z.add_assoc, Zplus_mod_idemp_l.
    f_equal; lia.
Qed.

Lemma eval_unpack_lc rho bits :
  eval rho (unpack_lc bits) = weighted_sum 0 (map (eval rho) bits) mod p.
Proof.
  pose proof p_gt_1 as Hp.
  unfold unpack_lc, reduce. rewrite eval_reduce_lc, eval_createField.
  rewrite Zplus_mod_idemp_l. reflexivity.
Qed.

Lemma values_createBool rho bits :
  values rho (map createBool bits) = map (eval rho) bits.
Proof. unfold values. rewrite map_map. reflexivity. Qed.

(** What the constraints of [unpack] say about an assignment. *)
Lemma unpack_gates_iff rho bits x :
  satisfies rho (map Boolean bits ++ [R1CS (unpack_lc bits) (createField 1) x]) <->
  Forall is_bit (map (eval rho) bits) /\
  weighted_sum 0 (map (eval rho) bits) mod p = eval rho x.
Proof.
  pose proof p_gt_1 as Hp.
  rewrite satisfies_app. unfold satisfies.
  rewrite Forall_cons_iff, !Forall_map. cbn [holds].
  rewrite eval_unpack_lc, eval_createField. unfold Fp_mul.
  rewrite (Z.mod_small 1 p), Z.mul_1_r, Z.mod_mod by lia.
  split.
  - intros (Hb & Hlc & _). split; [|exact Hlc].
    eapply Forall_impl; [|exact Hb]. intros b Hsq.
    apply boolean_values; [apply eval_range | exact Hsq].
  - intros (Hb & Hlc). split; [|split; [exact Hlc | constructor]].
    eapply Forall_impl; [|exact Hb]. intros b [E | E]; rewrite E; unfold Fp_mul.
    + apply Z.mod_0_l; lia.
    + apply Z.mod_small; lia.
Qed.

Lemma seq_from n k : seq n k = map (Nat.add n) (seq 0 k).
Proof.
  revert n. induction k as [| k IH]; intros n; simpl.
  - reflexivity.
  - rewrite Nat.add_0_r. f_equal.
    rewrite (IH (S n)), (IH 1%nat), map_map.
    apply map_ext. intros j. lia.
Qed.

Lemma bit_is_bit x0 j : is_bit (Z.land (Z.shiftr x0 (Z.of_nat j)) 1).
Proof.
  change 1 with (Z.ones 1) at 1. rewrite Z.land_ones by lia.
  change (2 ^ 1) with 2. unfold is_bit.
  pose proof (Z.mod_pos_bound (Z.shiftr x0 (Z.of_nat j)) 2). lia.
Qed.

(** Extending an assignment by the values of [unpack_compute] gives the
    fresh variables the bits of [x]. *)
Lemma unpack_extend_values rho n x len w :
  eval (lookup w) x = eval rho x ->
  map (eval (extend rho n (map (fun v => v mod p) (unpack_compute x len w))))
      (fresh n (Z.to_nat len)) =
  map (fun j => Z.land (Z.shiftr (eval rho x) (Z.of_nat j)) 1)
      (seq 0 (Z.to_nat len)).
Proof.
  intros Hw. pose proof p_gt_1 as Hp.
  unfold fresh. rewrite (seq_from n), !map_map.
  apply map_ext_in. intros j Hj. apply in_seq in Hj.
  cbn [eval]. rewrite extend_at.
  unfold unpack_compute, toBigInt. rewrite Hw, map_map.
  set (bit := fun j => Z.land (Z.shiftr (eval rho x) (Z.of_nat j)) 1 mod p).
  rewrite (nth_indep _ 0 (bit 0%nat)) by (rewrite length_map, length_seq; lia).
  rewrite (map_nth bit), seq_nth by lia. unfold bit. simpl.
  rewrite Z.mod_mod by lia.
  destruct (bit_is_bit (eval rho x) j) as [E | E]; rewrite E.
  - apply Z.mod_0_l; lia.
  - apply Z.mod_small; lia.
Qed.

Lemma unpack_extend rho n x len w :
  0 <= len -> wf n x ->
  eval (lookup w) x = eval rho x ->
  eval rho x < 2 ^ len ->
  let rho' := extend rho n (map (fun v => v mod p) (unpack_compute x len w)) in
  satisfies rho' (unpack_gates n (Z.to_nat len) x) /\
  weighted_sum 0 (map (eval rho') (fresh n (Z.to_nat len))) = eval rho x.
Proof.
  intros Hlen Hwf Hw Hlt rho'. pose proof p_gt_1 as Hp.
  pose proof (eval_range rho x) as Hx.
  assert (Hsum : weighted_sum 0 (map (eval rho') (fresh n (Z.to_nat len))) = eval rho x).
  { unfold rho'. rewrite unpack_extend_values by assumption.
    rewrite weighted_sum_bits. simpl (Z.of_nat 0).
    rewrite Z.pow_0_r, Z.div_1_r, Z.mul_1_l, Z2Nat.id by lia.
    apply Z.mod_small. lia. }
  split; [|exact Hsum].
  unfold unpack_gates. apply unpack_gates_iff. split.
  - unfold rho'. rewrite unpack_extend_values by assumption.
    apply Forall_map, Forall_forall. intros j _. apply bit_is_bit.
  - rewrite Hsum. rewrite Z.mod_small by lia.
    symmetry. apply (eval_agree n); [assumption | apply extend_agree].
Qed.

(** With all bits 0 or 1 the recombination stays below [2 ^ length]. *)
Lemma weighted_sum_lt rho n k :
  Forall is_bit (map (eval rho) (fresh n k)) ->
  0 <= weighted_sum 0 (map (eval rho) (fresh n k)) < 2 ^ Z.of_nat k.
Proof.
  intros Hbits. pose proof (weighted_sum_bounds 0 _ Hbits) as Hb.
  unfold fresh in Hb at 3. rewrite !length_map, length_seq in Hb.
  simpl (Z.of_nat 0) in Hb. rewrite Z.pow_0_r in Hb. lia.
Qed.

Lemma unpack_forced rho n x len :
  0 <= len ->
  satisfies rho (unpack_gates n (Z.to_nat len) x) ->
  let bits := map createBool (fresh n (Z.to_nat len)) in
  Forall is_bit (values rho bits) /\
  weighted_sum 0 (values rho bits) mod p = eval rho x /\
  0 <= weighted_sum 0 (values rho bits) < 2 ^ len.
Proof.
  intros Hlen Hsat bits. unfold bits. rewrite values_createBool.
  apply unpack_gates_iff in Hsat. destruct Hsat as [Hbits Hlc].
  split; [exact Hbits|]. split; [exact Hlc|].
  pose proof (weighted_sum_lt _ _ _ Hbits) as Hb.
  rewrite Z2Nat.id in Hb by lia. exact Hb.
Qed.

Lemma unpack_unsatisfiable rho n x len :
  0 <= len -> 2 ^ len <= eval rho x ->
  ~ satisfies rho (unpack_gates n (Z.to_nat len) x).
Proof.
  intros Hlen Hge Hsat.
  destruct (unpack_forced rho n x len Hlen Hsat) as (_ & Hlc & Hb).
  pose proof (eval_range rho x) as Hx.
  rewrite Z.mod_small in Hlc by lia. lia.
Qed.

Lemma unpack_satisfiable rho n x len :
  0 <= len -> wf n x -> eval rho x < 2 ^ len ->
  satisfiable_from n rho (unpack_gates n (Z.to_nat len) x).
Proof.
  intros Hlen Hwf Hlt. eexists. split; [apply extend_agree|].
  apply (unpack_extend rho n x len (map rho (seq 0 n))); try assumption.
  apply (eval_agree n); [assumption | apply agree_snapshot].
Qed.

(** C4: [unpack(x, length)] returns exactly [length] wires and emits one
    boolean constraint per wire plus the recombination [lc * 1 = x].  In
    every assignment satisfying them each bit is 0 or 1 and the weighted
    sum of the bits equals [x] in the field; where [2 ^ length <= p] it
    equals [x] as an integer too.  If [x < 2 ^ length] the constraints are
    satisfiable, and in prover mode the computed bits satisfy them; if
    [x >= 2 ^ length] no assignment satisfies them. *)
Theorem unpack_correct (x : Field) (length : Z) (s : State) :
  0 <= length ->
  wf (next_var s) x ->
  let new := unpack_gates (next_var s) (Z.to_nat length) x in
  exists bits s',
    unpack x length s = Ok bits s' /\
    Z.of_nat (List.length bits) = length /\
    gates s' = gates s ++ new /\
    (forall rho, satisfies rho new ->
       Forall is_bit (values rho bits) /\
       weighted_sum 0 (values rho bits) mod p = eval rho x /\
       (2 ^ length <= p -> weighted_sum 0 (values rho bits) = eval rho x)) /\
    (forall rho, eval rho x < 2 ^ length -> satisfiable_from (next_var s) rho new) /\
    (forall rho, 2 ^ length <= eval rho x -> ~ satisfies rho new) /\
    (forall w, mode s = Prove w -> eval (lookup w) x < 2 ^ length ->
       exists w',
         mode s' = Prove w' /\ satisfies (lookup w') new /\
         weighted_sum 0 (values (lookup w') bits) = eval (lookup w) x).
Proof.
  intros Hlen Hwf new. pose proof p_gt_1 as Hp.
  eexists; eexists. split; [apply unpack_run; assumption|].
  split; [unfold fresh; rewrite !length_map, length_seq; lia|].
  split; [reflexivity|].
  split; [|split; [|split]].
  - intros rho Hsat.
    destruct (unpack_forced rho _ x length Hlen Hsat) as (Hbits & Hlc & Hb).
    split; [exact Hbits|]. split; [exact Hlc|].
    intros Hp2. rewrite Z.mod_small in Hlc by lia. exact Hlc.
  - intros rho Hlt. apply unpack_satisfiable; assumption.
  - intros rho Hge. apply unpack_unsatisfiable; assumption.
  - intros w Hmode Hlt. unfold new, next_var in *. rewrite Hmode in *.
    cbn [mode allocate]. eexists. split; [reflexivity|].
    destruct (unpack_extend (lookup w) (List.length w) x length w Hlen Hwf eq_refl Hlt)
      as [Hsat Hsum].
    split.
    + eapply satisfies_ext; [|exact Hsat]. intros i. apply lookup_app_extend.
    + rewrite values_createBool. rewrite <- Hsum. f_equal.
      apply map_ext. intros b. apply eval_ext. intros i. apply lookup_app_extend.
Qed.

(** ** The generic range-check comparators *)

Lemma seal_spec x s :
  wf (next_var s) x -> exists v s' new, sealed x s v s' new.
Proof.
  intros Hwf. pose proof p_gt_1 as Hp.
  assert (Hret : seal x s = Ok x s -> exists v s' new, sealed x s v s' new).
  { intros Hrun. exists x, s, []. unfold sealed. rewrite app_nil_r.
    repeat split; auto.
    intros rho. exists rho. repeat split; auto using agree_refl. constructor. }
  assert (Hnew : seal x s =
                   Ok (Var (next_var s))
                      (mkState (allocate (mode s) 1 (fun w => [toBigInt w x]))
                               (gates s ++ [Equal x (Var (next_var s))])) ->
                 exists v s' new, sealed x s v s' new).
  { intros Hrun. eexists; eexists; eexists. split; [exact Hrun|].
    assert (Hnext : next_var (mkState (allocate (mode s) 1 (fun w => [toBigInt w x]))
                                (gates s ++ [Equal x (Var (next_var s))]))
                    = (next_var s + 1)%nat)
      by (apply next_var_allocate; reflexivity).
    rewrite Hnext.
    split; [reflexivity|].
    split; [unfold inProver, allocate; simpl; destruct (mode s); reflexivity|].
    split; [lia|]. split; [simpl; lia|]. split.
    - intros rho Hsat. unfold satisfies in Hsat.
      rewrite Forall_cons_iff in Hsat. destruct Hsat as [Heq _].
      symmetry. exact Heq.
    - intros rho. exists (extend rho (next_var s) [eval rho x]).
      pose proof (extend_at rho (next_var s) [eval rho x] 0) as E.
      rewrite Nat.add_0_r in E. cbn [nth] in E.
      split; [apply extend_agree|]. split.
      + cbn [eval]. rewrite E. apply eval_mod.
      + intros rho' Hag. repeat constructor. cbn [holds eval].
        rewrite (Hag (next_var s)) by lia. rewrite E, eval_mod.
        apply (eval_agree (next_var s)); [assumption|].
        eapply agree_trans; [| apply extend_agree | exact Hag]. lia. }
  destruct x; try (apply Hret; reflexivity); apply Hnew;
    unfold seal, bind; rewrite exists_run by (reflexivity || lia); reflexivity.
Qed.

(** Sealing an expression and range-checking the result asserts that the
    value of the expression lies in the range. *)
Lemma sealed_rangeCheck rangeCheck c e s :
  asserts_range rangeCheck c (inProver s) ->
  wf (next_var s) e ->
  exists s' new,
    (v <- seal e ;; rangeCheck v) s = Ok tt s' /\
    gates s' = gates s ++ new /\
    forall rho, satisfiable_from (next_var s) rho new <-> 0 <= eval rho e < c.
Proof.
  intros Hrc Hwf.
  destruct (seal_spec e s Hwf)
    as (v & s1 & new1 & Hrun1 & Hg1 & Hmode & Hle & Hwfv & Hsound & Hcomplete).
  destruct (Hrc v s1 Hmode Hwfv) as (s2 & new2 & Hrun2 & Hg2 & Hspec).
  exists s2, (new1 ++ new2). unfold bind. rewrite Hrun1.
  split; [exact Hrun2|].
  split; [rewrite Hg2, Hg1, app_assoc; reflexivity|].
  intros rho. split.
  - intros (rho' & Hag & Hsat). apply satisfies_app in Hsat.
    destruct Hsat as [Hsat1 Hsat2].
    rewrite <- (eval_agree _ rho rho' e Hwf Hag), <- (Hsound rho' Hsat1).
    apply Hspec. exists rho'. split; [apply agree_refl | exact Hsat2].
  - intros Hrange. destruct (Hcomplete rho) as (rho1 & Hag1 & Hv & Hstable).
    rewrite <- Hv in Hrange. apply Hspec in Hrange.
    destruct Hrange as (rho' & Hag' & Hsat2).
    exists rho'. split; [eapply agree_trans; eassumption|].
    apply satisfies_app. split; [apply Hstable; exact Hag' | exact Hsat2].
Qed.

Lemma rangeCheck_bits_asserts k prover :
  0 <= k -> asserts_range (rangeCheck_bits k) (2 ^ k) prover.
Proof.
  intros Hk v s _ Hwf. unfold rangeCheck_bits, bind. rewrite unpack_run by assumption.
  eexists; eexists. split; [reflexivity|]. split; [reflexivity|].
  intros rho. split.
  - intros (rho' & Hag & Hsat).
    destruct (Z_lt_le_dec (eval rho v) (2 ^ k)) as [Hlt | Hge].
    + pose proof (eval_range rho v). lia.
    + exfalso. rewrite <- (eval_agree _ rho rho' v Hwf Hag) in Hge.
      exact (unpack_unsatisfiable rho' _ v k Hk Hge Hsat).
  - intros [_ Hlt]. apply unpack_satisfiable; assumption.
Qed.

(** A difference of two values of [[0, c)], shifted by at most one, lands
    in [[0, c)] modulo [p] only if it is not negative: [[0, c)] and
    [[p - c, p)] are disjoint when [2c <= p]. *)
Lemma mod_range_nonneg c d :
  2 * c <= p -> - c <= d < c -> (0 <= d mod p < c <-> 0 <= d).
Proof.
  intros Hc Hd. pose proof p_gt_1 as Hp.
  destruct (Z_lt_le_dec d 0) as [Hneg | Hpos].
  - replace (d mod p) with (d + p); [lia|].
    rewrite <- (Z.mod_small (d + p) p) by lia.
    replace (d + p) with (d + 1 * p) by lia. apply Z.mod_add. lia.
  - rewrite Z.mod_small by lia. lia.
Qed.

(** C1: with [rangeCheck] asserting membership in [[0, c)] and [2c <= p],
    [assertLessThanOrEqualGeneric(x, y, rangeCheck)] returns, and for all
    values of [x] and [y] in [[0, c)] the constraints it emits (the seal
    of [y - x] and those of [rangeCheck]) are satisfiable if and only if
    [x <= y]. *)
Theorem assertLessThanOrEqualGeneric_correct
    (rangeCheck : Field -> Circuit unit) (c : Z) (x y : Field) (s : State) :
  2 * c <= p ->
  asserts_range rangeCheck c (inProver s) ->
  wf (next_var s) x -> wf (next_var s) y ->
  exists s' new,
    assertLessThanOrEqualGeneric x y rangeCheck s = Ok tt s' /\
    gates s' = gates s ++ new /\
    forall rho,
      0 <= eval rho x < c -> 0 <= eval rho y < c ->
      (satisfiable_from (next_var s) rho new <-> eval rho x <= eval rho y).
Proof.
  intros Hc Hrc Hx Hy.
  destruct (sealed_rangeCheck rangeCheck c (sub y x) s Hrc (wf_sub _ _ _ Hy Hx))
    as (s' & new & Hrun & Hg & Hspec).
  exists s', new. split; [exact Hrun|]. split; [exact Hg|].
  intros rho Hxr Hyr. rewrite Hspec, eval_sub.
  rewrite mod_range_nonneg by lia. lia.
Qed.

(** C2: under the same assumptions the constraints emitted by
    [assertLessThanGeneric(x, y, rangeCheck)] (the seal of [y - 1 - x] and
    those of [rangeCheck]) are satisfiable if and only if [x < y]. *)
Theorem assertLessThanGeneric_correct
    (rangeCheck : Field -> Circuit unit) (c : Z) (x y : Field) (s : State) :
  2 * c <= p ->
  asserts_range rangeCheck c (inProver s) ->
  wf (next_var s) x -> wf (next_var s) y ->
  exists s' new,
    assertLessThanGeneric x y rangeCheck s = Ok tt s' /\
    gates s' = gates s ++ new /\
    forall rho,
      0 <= eval rho x < c -> 0 <= eval rho y < c ->
      (satisfiable_from (next_var s) rho new <-> eval rho x < eval rho y).
Proof.
  intros Hc Hrc Hx Hy. pose proof p_gt_1 as Hp.
  assert (Hwf : wf (next_var s) (sub (sub y (createField 1)) x)).
  { apply wf_sub; [apply wf_sub|]; simpl; auto. }
  destruct (sealed_rangeCheck rangeCheck c _ s Hrc Hwf)
    as (s' & new & Hrun & Hg & Hspec).
  exists s', new. split; [exact Hrun|]. split; [exact Hg|].
  intros rho Hxr Hyr. rewrite Hspec, !eval_sub, eval_createField.
  rewrite Zminus_mod_idemp_r, Zminus_mod_idemp_l.
  rewrite mod_range_nonneg by lia. lia.
Qed.

(** ** The prover-side range guard *)

Lemma checkRangesAsProver_compile x y c s :
  inProver s = false -> checkRangesAsProver x y c s = Ok tt s.
Proof.
  unfold checkRangesAsProver, asProver, inProver.
  destruct (mode s); [reflexivity | discriminate].
Qed.

Lemma checkRangesAsProver_prove x y c s w :
  mode s = Prove w ->
  checkRangesAsProver x y c s =
    if (eval (lookup w) x >=? c) || (eval (lookup w) y >=? c)
    then Throw (ComparisonOutOfRange c (eval (lookup w) x) (eval (lookup w) y)) s
    else Ok tt s.
Proof.
  intros Hmode. unfold checkRangesAsProver, asProver, toBigInt. rewrite Hmode.
  destruct (_ || _); reflexivity.
Qed.

(** C7: [checkRangesAsProver(x, y, c)] throws exactly when it runs in
    prover mode and the value of [x] or of [y] is at least [c]; while the
    circuit is compiled it does nothing; and whether it returns or throws,
    the state is the one it started in, so no constraint is ever added. *)
Theorem checkRangesAsProver_spec (x y : Field) (c : Z) (s : State) :
  ((exists e s', checkRangesAsProver x y c s = Throw e s') <->
   (exists w, mode s = Prove w /\
              (c <= eval (lookup w) x \/ c <= eval (lookup w) y))) /\
  (inProver s = false -> checkRangesAsProver x y c s = Ok tt s) /\
  (forall w, mode s = Prove w ->
     c <= eval (lookup w) x \/ c <= eval (lookup w) y ->
     checkRangesAsProver x y c s =
       Throw (ComparisonOutOfRange c (eval (lookup w) x) (eval (lookup w) y)) s) /\
  (forall u s', checkRangesAsProver x y c s = Ok u s' -> s' = s) /\
  (forall e s', checkRangesAsProver x y c s = Throw e s' -> s' = s).
Proof.
  assert (Hprove : forall w, mode s = Prove w ->
            (c <= eval (lookup w) x \/ c <= eval (lookup w) y ->
             checkRangesAsProver x y c s =
               Throw (ComparisonOutOfRange c (eval (lookup w) x) (eval (lookup w) y)) s) /\
            (~ (c <= eval (lookup w) x \/ c <= eval (lookup w) y) ->
             checkRangesAsProver x y c s = Ok tt s)).
  { intros w Hmode. rewrite (checkRangesAsProver_prove x y c s w Hmode).
    destruct (Z.geb_spec (eval (lookup w) x) c), (Z.geb_spec (eval (lookup w) y) c);
      simpl; split; intros; try reflexivity; lia. }
  split; [|split; [|split; [|split]]].
  - split.
    + intros (e & s' & Hthrow). destruct (mode s) as [n | w] eqn:Hmode.
      * rewrite checkRangesAsProver_compile in Hthrow
          by (unfold inProver; rewrite Hmode; reflexivity).
        discriminate.
      * exists w. split; [reflexivity|].
        destruct (Hprove w eq_refl) as [_ Hok].
        destruct (Z_le_gt_dec c (eval (lookup w) x)); [left; assumption|].
        destruct (Z_le_gt_dec c (eval (lookup w) y)); [right; assumption|].
        rewrite Hok in Hthrow by lia. discriminate.
    + intros (w & Hmode & Hge). eexists; eexists.
      apply (Hprove w Hmode). exact Hge.
  - apply checkRangesAsProver_compile.
  - intros w Hmode. apply (Hprove w Hmode).
  - intros u s'. unfold checkRangesAsProver, asProver.
    destruct (mode s); [|destruct (_ || _)]; congruence.
  - intros e s'. unfold checkRangesAsProver, asProver.
    destruct (mode s); [|destruct (_ || _)]; congruence.
Qed.

(** C10: [isZero] emits two multiplication constraints and no boolean
    constraint, and yet in every assignment satisfying the two, whatever
    the value of [x], the returned wire is 0 or 1. *)
Theorem isZero_boolean_sound (x : Field) (s : State) :
  exists b s',
    isZero x s = Ok b s' /\
    gates s' = gates s ++ isZero_gates (next_var s) x /\
    forallb (fun g => negb (is_boolean_gate g)) (isZero_gates (next_var s) x) = true /\
    ~ explicitly_boolean b (isZero_gates (next_var s) x) /\
    forall rho,
      satisfies rho (isZero_gates (next_var s) x) -> is_bit (eval rho (toField b)).
Proof.
  eexists; eexists. split; [apply isZero_run|]. split; [reflexivity|].
  split; [reflexivity|]. split.
  - unfold explicitly_boolean, isZero_gates. simpl. intuition discriminate.
  - intros rho Hsat. cbn [toField]. rewrite (isZero_forced _ _ _ Hsat).
    unfold zero_flag, is_bit. destruct (_ =? 0); auto.
Qed.

(** ** [compareCompatible] *)

Lemma compareCompatible_too_long x y n s :
  Fp_sizeInBits - 2 < n ->
  compareCompatible x y n s = Throw (BitLengthTooLarge (Fp_sizeInBits - 2)) s.
Proof.
  intros Hn. unfold compareCompatible, bind, assert.
  destruct (Z.leb_spec n (Fp_sizeInBits - 2)); [lia | reflexivity].
Qed.

Lemma unpack_negative x len s :
  len < 0 -> unpack x len s = Throw (InvalidSize len) s.
Proof.
  intros Hlen. unfold unpack, bind, exists_.
  destruct (Z.ltb_spec len 0); [reflexivity | lia].
Qed.

Lemma max_length_lower : -1 <= Fp_sizeInBits - 2.
Proof. unfold Fp_sizeInBits. pose proof (Z.log2_nonneg p). lia. Qed.

(** A size [n + 1] below zero stops the gadget in [unpack], once the
    prover-side guard has passed. *)
Lemma compareCompatible_no_size x y n s :
  n <= -2 ->
  compareCompatible x y n s =
    match checkRangesAsProver x y (Z.shiftl 1 n) s with
    | Throw e s' => Throw e s'
    | Ok _ s' => Throw (InvalidSize (n + 1)) s'
    end.
Proof.
  intros Hn. pose proof max_length_lower.
  unfold compareCompatible, bind at 1 2, assert.
  destruct (Z.leb_spec n (Fp_sizeInBits - 2)); [|lia].
  unfold ret at 1. cbv beta iota.
  destruct (checkRangesAsProver x y (Z.shiftl 1 n) s) as [u s' | e s']; [|reflexivity].
  unfold bind at 1. rewrite unpack_negative by lia. reflexivity.
Qed.

Lemma compareCompatible_guard x y n s :
  -1 <= n <= Fp_sizeInBits - 2 ->
  compareCompatible x y n s =
    match checkRangesAsProver x y (Z.shiftl 1 n) s with
    | Throw e s' => Throw e s'
    | Ok _ s' =>
        match any (slice0 (compare_bits (next_var s') n) n) (compare_state1 s' x y n) with
        | Throw e s2 => Throw e s2
        | Ok notAllZeros s2 =>
            match index (compare_bits (next_var s') n) n with
            | Some lessOrEqual =>
                (less <- Bool_and lessOrEqual notAllZeros ;;
                 ret (lessOrEqual, less)) s2
            | None => Throw TypeError s2
            end
        end
    end.
Proof.
  intros Hn. unfold compareCompatible, bind at 1 2, assert.
  destruct (Z.leb_spec n (Fp_sizeInBits - 2)); [|lia].
  unfold ret at 1. cbv beta iota.
  destruct (checkRangesAsProver x y (Z.shiftl 1 n) s) as [u s' | e s']; [|reflexivity].
  unfold bind at 1. rewrite unpack_run by lia. fold (compare_z x y n).
  unfold bind at 1.
  fold (compare_bits (next_var s') n). fold (compare_state1 s' x y n).
  destruct (any _ _) as [notAllZeros s2 | e s2]; [|reflexivity].
  destruct (index _ _); reflexivity.
Qed.

Lemma index_compare_bits n0 n :
  0 <= n ->
  index (compare_bits n0 n) n = Some (createBool (Var (n0 + Z.to_nat n))).
Proof.
  intros Hn. unfold index, compare_bits, fresh.
  destruct (Z.ltb_spec n 0); [lia|].
  rewrite !nth_error_map.
  rewrite (nth_error_nth' _ 0%nat) by (rewrite length_seq; lia).
  rewrite seq_nth by lia. reflexivity.
Qed.

Lemma firstn_seq_le n0 j k : (j <= k)%nat -> firstn j (seq n0 k) = seq n0 j.
Proof.
  revert n0 k. induction j as [| j IH]; intros n0 k Hle; [reflexivity|].
  destruct k as [| k]; [lia|]. simpl. f_equal. apply IH. lia.
Qed.

Lemma slice0_compare_bits n0 n :
  0 <= n ->
  slice0 (compare_bits n0 n) n = map createBool (fresh n0 (Z.to_nat n)).
Proof.
  intros Hn. unfold slice0, compare_bits, fresh.
  destruct (Z.ltb_spec n 0); [lia|].
  rewrite !firstn_map, firstn_seq_le by lia. reflexivity.
Qed.

Lemma next_var_compare_state1 s x y n :
  next_var (compare_state1 s x y n) = (next_var s + Z.to_nat (n + 1))%nat.
Proof.
  unfold compare_state1. apply next_var_allocate.
  intros; apply unpack_compute_length.
Qed.

Lemma next_var_compare_state2 s x y n :
  next_var (compare_state2 s x y n) = (next_var s + Z.to_nat (n + 1) + 2)%nat.
Proof.
  unfold compare_state2. cbv zeta.
  rewrite (next_var_allocate (compare_state1 s x y n) 2) by reflexivity.
  rewrite next_var_compare_state1. reflexivity.
Qed.

(** Once the two guards have passed and [n] is a proper bit length, the
    gadget runs to its end. *)
Lemma compareCompatible_run x y n s :
  0 <= n <= Fp_sizeInBits - 2 ->
  checkRangesAsProver x y (Z.shiftl 1 n) s = Ok tt s ->
  compareCompatible x y n s =
    Ok (createBool (Var (next_var s + Z.to_nat n)),
        createBool (Var (next_var (compare_state2 s x y n))))
       (compare_state3 s x y n).
Proof.
  intros Hn Hchk. rewrite compareCompatible_guard by lia. rewrite Hchk.
  rewrite any_run, index_compare_bits by lia.
  unfold bind, Bool_and. cbn [toField].
  unfold mul, Bool_not, sub, add, createField, neg. cbn [toField].
  unfold bind. rewrite exists_run by (reflexivity || lia).
  reflexivity.
Qed.

Lemma checkRangesAsProver_result x y c s :
  checkRangesAsProver x y c s = Ok tt s \/
  exists x0 y0, checkRangesAsProver x y c s = Throw (ComparisonOutOfRange c x0 y0) s.
Proof.
  unfold checkRangesAsProver, asProver.
  destruct (mode s); [left; reflexivity|].
  destruct (_ || _); [right; eexists; eexists | left]; reflexivity.
Qed.

(** For [n = -1] there is no wire [zBits[n]], and the final [and] is
    called on [undefined], after constraints have been added. *)
Lemma compareCompatible_negative x y n s :
  n = -1 ->
  checkRangesAsProver x y (Z.shiftl 1 n) s = Ok tt s ->
  compareCompatible x y n s = Throw TypeError (compare_state2 s x y n).
Proof.
  intros Hneg Hchk. pose proof max_length_lower.
  rewrite compareCompatible_guard by lia. rewrite Hchk.
  rewrite any_run. unfold index.
  destruct (Z.ltb_spec n 0); [reflexivity | lia].
Qed.

(** Every way a run of [compareCompatible] can end. *)
Lemma compareCompatible_outcome x y n s :
  (Fp_sizeInBits - 2 < n /\
   compareCompatible x y n s = Throw (BitLengthTooLarge (Fp_sizeInBits - 2)) s) \/
  (n <= Fp_sizeInBits - 2 /\ inProver s = true /\
   exists x0 y0,
     compareCompatible x y n s = Throw (ComparisonOutOfRange (Z.shiftl 1 n) x0 y0) s) \/
  (n <= -2 /\ compareCompatible x y n s = Throw (InvalidSize (n + 1)) s) \/
  (n = -1 /\ compareCompatible x y n s = Throw TypeError (compare_state2 s x y n)) \/
  (0 <= n <= Fp_sizeInBits - 2 /\
   checkRangesAsProver x y (Z.shiftl 1 n) s = Ok tt s /\
   compareCompatible x y n s =
     Ok (createBool (Var (next_var s + Z.to_nat n)),
         createBool (Var (next_var (compare_state2 s x y n))))
        (compare_state3 s x y n)).
Proof.
  pose proof max_length_lower as Hmax.
  destruct (Z_lt_le_dec (Fp_sizeInBits - 2) n) as [Hgt | Hle].
  { left. split; [exact Hgt | apply compareCompatible_too_long; exact Hgt]. }
  right.
  destruct (checkRangesAsProver_result x y (Z.shiftl 1 n) s) as [Hchk | (x0 & y0 & Hchk)].
  - right.
    destruct (Z_le_gt_dec n (-2)) as [Hsmall | Hbig].
    { left. split; [exact Hsmall|].
      rewrite compareCompatible_no_size, Hchk by assumption. reflexivity. }
    right. destruct (Z.eq_dec n (-1)) as [Hm1 | Hnm1].
    { left. split; [exact Hm1 | apply compareCompatible_negative; assumption]. }
    right. split; [lia|]. split; [exact Hchk|].
    apply compareCompatible_run; [lia | exact Hchk].
  - left. split; [exact Hle|]. split.
    + unfold inProver. unfold checkRangesAsProver, asProver in Hchk.
      destruct (mode s); [discriminate | reflexivity].
    + exists x0, y0.
      destruct (Z_le_gt_dec n (-2)) as [Hsmall | Hbig].
      * rewrite compareCompatible_no_size, Hchk by assumption. reflexivity.
      * rewrite compareCompatible_guard, Hchk by lia. reflexivity.
Qed.


Lemma gates_compare_state3 s x y n :
  0 <= n ->
  gates (compare_state3 s x y n) = gates s ++ compare_gates (next_var s) x y n.
Proof.
  intros Hn. unfold compare_state3. cbv zeta. cbn [gates].
  rewrite next_var_compare_state2, next_var_compare_state1.
  unfold compare_state2. cbv zeta. cbn [gates].
  rewrite next_var_compare_state1, slice0_compare_bits by assumption.
  unfold compare_state1. cbn [gates].
  unfold compare_gates, compare_prefix. cbv zeta.
  rewrite <- !app_assoc. reflexivity.
Qed.

Lemma max_length_fits n :
  0 <= n <= Fp_sizeInBits - 2 -> 2 ^ (n + 1) <= p /\ n < p.
Proof.
  intros Hn. pose proof p_gt_1 as Hp. unfold Fp_sizeInBits in Hn.
  destruct (Z.log2_spec p) as [Hlow _]; [lia|].
  assert (Hpow : 2 ^ (n + 1) <= 2 ^ Z.log2 p) by (apply Z.pow_le_mono_r; lia).
  pose proof (Z.pow_gt_lin_r 2 (n + 1)). lia.
Qed.

Lemma eval_compare_z rho x y n :
  0 <= n ->
  eval rho (compare_z x y n) = (2 ^ n + eval rho y - eval rho x) mod p.
Proof.
  intros Hn. unfold compare_z.
  rewrite eval_sub, eval_add, eval_createField, Z.shiftl_1_l.
  rewrite Zplus_mod_idemp_l, Zminus_mod_idemp_l. reflexivity.
Qed.

Lemma weighted_sum_app i0 l1 l2 :
  weighted_sum i0 (l1 ++ l2) =
  weighted_sum i0 l1 + weighted_sum (i0 + length l1) l2.
Proof.
  revert i0. induction l1 as [| v l1 IH]; intros i0; simpl.
  - rewrite Nat.add_0_r. reflexivity.
  - rewrite IH. replace (S i0 + length l1)%nat with (i0 + S (length l1))%nat by lia.
    lia.
Qed.

Lemma weighted_sum_zero_iff i0 vals :
  Forall is_bit vals -> (weighted_sum i0 vals = 0 <-> sum_values vals = 0).
Proof.
  intros Hbits. revert i0.
  induction Hbits as [| v vs Hv Hvs IH]; intros i0; simpl; [tauto|].
  pose proof (weighted_sum_bounds (S i0) vs Hvs) as Hw.
  pose proof (sum_values_bounds vs Hvs) as Hsv.
  assert (0 < 2 ^ Z.of_nat i0) by (apply Z.pow_pos_nonneg; lia).
  specialize (IH (S i0)).
  destruct Hv; subst; lia.
Qed.

Lemma fresh_S n0 k : fresh n0 (S k) = fresh n0 k ++ [Var (n0 + k)].
Proof. unfold fresh. rewrite seq_S, map_app. reflexivity. Qed.

(** Soundness of [compareCompatible]: in every assignment that satisfies
    its constraints and gives [x] and [y] values below [2^n], the wire
    [lessOrEqual] is the truth value of [x <= y] and the wire [less] that
    of [x < y]. *)
Lemma compare_forced rho n0 x y n :
  0 <= n <= Fp_sizeInBits - 2 ->
  eval rho x < 2 ^ n -> eval rho y < 2 ^ n ->
  satisfies rho (compare_gates n0 x y n) ->
  eval rho (Var (n0 + Z.to_nat n)) = flag (eval rho x <=? eval rho y) /\
  eval rho (Var (n0 + Z.to_nat (n + 1) + 2)) = flag (eval rho x <? eval rho y).
Proof.
  intros Hn Hx Hy Hsat. pose proof p_gt_1 as Hp.
  destruct (max_length_fits n Hn) as [Hfit Hnp].
  pose proof (eval_range rho x) as Hxr. pose proof (eval_range rho y) as Hyr.
  unfold compare_gates in Hsat. cbv zeta in Hsat.
  apply satisfies_app in Hsat. destruct Hsat as [H1 H23].
  apply satisfies_app in H23. destruct H23 as [H2 H3].
  (* the bits of z *)
  destruct (unpack_forced rho n0 _ (n + 1) ltac:(lia) H1) as (Hbits & Hlc & Hb).
  set (m := Z.to_nat n) in *.
  assert (Hk : Z.to_nat (n + 1) = S m) by (unfold m; lia).
  rewrite Hk in *.
  set (low := values rho (compare_prefix n0 n)) in *.
  set (bn := eval rho (Var (n0 + m))) in *.
  assert (Hvals : values rho (map createBool (fresh n0 (S m))) = low ++ [bn]).
  { rewrite fresh_S, map_app. unfold values. rewrite map_app. reflexivity. }
  rewrite Hvals in *.
  apply Forall_app in Hbits. destruct Hbits as [Hlow Hbn].
  apply Forall_inv in Hbn.
  assert (Hlen : length low = m).
  { unfold low, values, compare_prefix, fresh.
    rewrite !length_map, length_seq. reflexivity. }
  rewrite weighted_sum_app, Hlen in Hlc, Hb.
  cbn [weighted_sum] in Hlc, Hb. rewrite Nat.add_0_l in Hlc, Hb.
  assert (Hm : Z.of_nat m = n) by (unfold m; lia). rewrite Hm in Hlc, Hb.
  pose proof (weighted_sum_bounds 0 low Hlow) as HL.
  rewrite Hlen, Hm in HL. simpl (Z.of_nat 0) in HL. rewrite Z.pow_0_r in HL.
  set (L := weighted_sum 0 low) in *.
  assert (Hpow : 2 ^ (n + 1) = 2 * 2 ^ n) by (apply Z.pow_succ_r; lia).
  assert (Hpos : 0 < 2 ^ n) by (apply Z.pow_pos_nonneg; lia).
  rewrite eval_compare_z in Hlc by lia.
  rewrite Z.mod_small in Hlc by lia.
  rewrite Z.mod_small in Hlc by lia.
  (* the zero test of the low bits *)
  assert (Hcount : Z.of_nat (length (compare_prefix n0 n)) < p).
  { unfold compare_prefix, fresh. rewrite !length_map, length_seq. fold m. lia. }
  destruct (any_forced rho _ _ Hcount Hlow H2) as [Hr Hany].
  rewrite <- sum_values_positive in Hany by assumption.
  rewrite <- (weighted_sum_zero_iff 0) in Hany by assumption.
  fold low L in Hany.
  set (r := eval rho (toField (Bool_not (createBool (Var (n0 + S m)))))) in *.
  (* the product *)
  unfold satisfies in H3. rewrite Forall_cons_iff in H3. destruct H3 as [H3 _].
  cbn [holds] in H3. fold bn r in H3. rewrite <- H3. unfold Fp_mul.
  unfold flag.
  destruct (Z.leb_spec (eval rho x) (eval rho y)),
           (Z.ltb_spec (eval rho x) (eval rho y)),
           Hbn as [Hbn | Hbn], Hr as [Hr | Hr];
    rewrite ?Hbn, ?Hr in *; simpl;
    rewrite ?Z.mod_0_l, ?(Z.mod_small 1 p) by lia; lia.
Qed.

(** ** The witness of a prover run *)

Lemma holds_agree n rho rho' g :
  wf_gate n g -> agree n rho rho' -> holds rho g -> holds rho' g.
Proof.
  intros Hwf Hag. destruct g; simpl in *.
  - rewrite !(eval_agree n rho rho') by tauto. trivial.
  - rewrite !(eval_agree n rho rho') by tauto. trivial.
  - rewrite !(eval_agree n rho rho') by tauto. trivial.
Qed.

Lemma satisfies_agree n rho rho' gs :
  Forall (wf_gate n) gs -> agree n rho rho' -> satisfies rho gs -> satisfies rho' gs.
Proof.
  intros Hwf Hag Hsat. unfold satisfies in *.
  rewrite Forall_forall in *. intros g Hg.
  apply (holds_agree n rho); auto.
Qed.

Lemma wf_fresh n0 k n' : (n0 + k <= n')%nat -> Forall (wf n') (fresh n0 k).
Proof.
  intros Hle. unfold fresh. apply Forall_map, Forall_forall.
  intros i Hi. apply in_seq in Hi. simpl. lia.
Qed.

Lemma wf_reduce_lc n' bits i0 acc :
  Forall (wf n') bits -> wf n' acc ->
  wf n' (reduce_from (fun acc b i => add acc (scale (Z.shiftl 1 (Z.of_nat i)) b))
                     i0 bits acc).
Proof.
  intros Hbits. revert i0 acc.
  induction Hbits as [| b bits Hb _ IH]; intros i0 acc Hacc; simpl.
  - assumption.
  - apply IH. apply wf_add; [assumption | apply wf_scale; assumption].
Qed.

Lemma wf_unpack_gates n0 k x n' :
  (n0 + k <= n')%nat -> wf n' x -> Forall (wf_gate n') (unpack_gates n0 k x).
Proof.
  intros Hle Hx. pose proof (wf_fresh n0 k n' Hle) as Hfresh.
  unfold unpack_gates. apply Forall_app. split.
  - apply Forall_map. eapply Forall_impl; [|exact Hfresh]. auto.
  - repeat constructor; [|assumption].
    unfold unpack_lc, reduce. apply wf_reduce_lc; [assumption | exact I].
Qed.

Lemma wf_isZero_gates n x n' :
  (n + 2 <= n')%nat -> wf n' x -> Forall (wf_gate n') (isZero_gates n x).
Proof.
  intros Hle Hx. unfold isZero_gates.
  repeat constructor; simpl; try assumption; lia.
Qed.

Lemma wf_compare_prefix n0 n n' :
  (n0 + Z.to_nat n <= n')%nat ->
  Forall (fun b => wf n' (toField b)) (compare_prefix n0 n).
Proof.
  intros Hle. unfold compare_prefix. apply Forall_map.
  eapply Forall_impl; [|apply (wf_fresh n0 (Z.to_nat n) n' Hle)]. auto.
Qed.

Lemma wf_compare_z n' x y n : wf n' x -> wf n' y -> wf n' (compare_z x y n).
Proof.
  intros Hx Hy. unfold compare_z.
  apply wf_sub; [apply wf_add|]; simpl; auto.
Qed.

Lemma unpack_prover w x len :
  0 <= len -> wf (length w) x -> eval (lookup w) x < 2 ^ len ->
  satisfies (lookup (w ++ map (fun v => v mod p) (unpack_compute x len w)))
            (unpack_gates (length w) (Z.to_nat len) x).
Proof.
  intros Hlen Hwf Hlt.
  destruct (unpack_extend (lookup w) (length w) x len w Hlen Hwf eq_refl Hlt)
    as [Hsat _].
  eapply satisfies_ext; [|exact Hsat]. intros i. apply lookup_app_extend.
Qed.

(** Completeness of [compareCompatible]: on inputs below [2^n] the
    witness built in prover mode satisfies every constraint emitted. *)
Lemma compare_prover_z s w x y n :
  mode s = Prove w ->
  wf (length w) x -> wf (length w) y ->
  0 <= n <= Fp_sizeInBits - 2 ->
  eval (lookup w) (compare_z x y n) < 2 ^ (n + 1) ->
  exists w',
    mode (compare_state3 s x y n) = Prove w' /\
    agree (length w) (lookup w) (lookup w') /\
    satisfies (lookup w') (compare_gates (length w) x y n).
Proof.
  intros Hmode Hx Hy Hn Hz. pose proof p_gt_1 as Hp.
  destruct (max_length_fits n Hn) as [Hfit Hnp].
  pose proof (wf_compare_z _ x y n Hx Hy) as Hwfz.
  unfold compare_state3, compare_state2. cbv zeta. cbn [mode].
  rewrite next_var_compare_state1.
  unfold compare_state1. cbn [mode]. unfold next_var. rewrite Hmode.
  cbn [allocate]. rewrite slice0_compare_bits by lia.
  fold (compare_prefix (length w) n).
  set (k := Z.to_nat (n + 1)).
  set (w1 := w ++ map (fun v => v mod p) (unpack_compute (compare_z x y n) (n + 1) w)).
  set (w2 := w1 ++ map (fun v => v mod p)
                     (isZero_compute (any_sum (compare_prefix (length w) n)) w1)).
  assert (Hl1 : length w1 = (length w + k)%nat).
  { unfold w1. rewrite length_app, length_map, unpack_compute_length. reflexivity. }
  assert (Hl2 : length w2 = (length w + k + 2)%nat).
  { unfold w2. rewrite length_app, length_map, Hl1. reflexivity. }
  eexists. split; [reflexivity|].
  set (v3 := map _ _).
  assert (Hag13 : agree (length w1) (lookup w1) (lookup (w2 ++ v3))).
  { unfold w2. rewrite <- app_assoc. apply agree_lookup_app. }
  split.
  { eapply agree_trans; [| apply (agree_lookup_app w) | exact Hag13].
    lia. }
  unfold compare_gates. cbv zeta. fold k.
  apply satisfies_app. split; [|apply satisfies_app; split].
  - apply (satisfies_agree (length w1) (lookup w1)); [| exact Hag13 |].
    + apply wf_unpack_gates; [lia|].
      apply (wf_mono (length w)); [lia | assumption].
    + apply unpack_prover; [lia | assumption | assumption].
  - apply (satisfies_agree (length w2) (lookup w2)); [| apply agree_lookup_app |].
    + apply wf_isZero_gates; [lia|].
      apply wf_any_sum, wf_compare_prefix. unfold k. lia.
    + rewrite <- Hl1. apply isZero_prover.
      apply wf_any_sum, wf_compare_prefix. rewrite Hl1. unfold k. lia.
  - repeat constructor. cbn [holds].
    set (le := Var (length w + Z.to_nat n)).
    set (notAll := toField (Bool_not (createBool (Var (length w + k))))).
    assert (Hwle : wf (length w2) le) by (unfold le, k; simpl; lia).
    assert (Hwna : wf (length w2) notAll) by (unfold notAll; simpl; lia).
    rewrite (eval_agree _ _ _ le Hwle (agree_lookup_app w2 v3)).
    rewrite (eval_agree _ _ _ notAll Hwna (agree_lookup_app w2 v3)).
    cbn [eval]. rewrite <- Hl2.
    pose proof (lookup_app_r w2 v3 0) as E. rewrite Nat.add_0_r in E.
    rewrite E. unfold v3. cbn [map nth]. unfold toBigInt, Fp_mul.
    rewrite !Z.mod_mod by lia. reflexivity.
Qed.

Lemma compare_prover s w x y n :
  mode s = Prove w ->
  wf (length w) x -> wf (length w) y ->
  0 <= n <= Fp_sizeInBits - 2 ->
  eval (lookup w) x < 2 ^ n -> eval (lookup w) y < 2 ^ n ->
  exists w',
    mode (compare_state3 s x y n) = Prove w' /\
    agree (length w) (lookup w) (lookup w') /\
    satisfies (lookup w') (compare_gates (length w) x y n).
Proof.
  intros Hmode Hx Hy Hn Hxlt Hylt. pose proof p_gt_1 as Hp.
  destruct (max_length_fits n Hn) as [Hfit Hnp].
  pose proof (eval_range (lookup w) x) as Hxr.
  pose proof (eval_range (lookup w) y) as Hyr.
  assert (Hpow : 2 ^ (n + 1) = 2 * 2 ^ n) by (apply Z.pow_succ_r; lia).
  apply compare_prover_z; try assumption.
  rewrite eval_compare_z by lia. rewrite Z.mod_small; lia.
Qed.

(** In prover mode, on inputs below [2^n], [compareCompatible] returns the
    truth values of [x <= y] and [x < y], carried by a witness that
    satisfies all the constraints it has emitted. *)
Lemma compareCompatible_prover s w x y n :
  mode s = Prove w ->
  wf (length w) x -> wf (length w) y ->
  0 <= n <= Fp_sizeInBits - 2 ->
  eval (lookup w) x < 2 ^ n -> eval (lookup w) y < 2 ^ n ->
  exists lessOrEqual less s' w',
    compareCompatible x y n s = Ok (lessOrEqual, less) s' /\
    mode s' = Prove w' /\
    gates s' = gates s ++ compare_gates (length w) x y n /\
    satisfies (lookup w') (compare_gates (length w) x y n) /\
    eval (lookup w') (toField lessOrEqual) =
      flag (eval (lookup w) x <=? eval (lookup w) y) /\
    eval (lookup w') (toField less) =
      flag (eval (lookup w) x <? eval (lookup w) y).
Proof.
  intros Hmode Hx Hy Hn Hxlt Hylt.
  assert (Hchk : checkRangesAsProver x y (Z.shiftl 1 n) s = Ok tt s).
  { rewrite (checkRangesAsProver_prove x y _ s w Hmode), Z.shiftl_1_l.
    destruct (Z.geb_spec (eval (lookup w) x) (2 ^ n)); [lia|].
    destruct (Z.geb_spec (eval (lookup w) y) (2 ^ n)); [lia|]. reflexivity. }
  destruct (compare_prover s w x y n Hmode Hx Hy Hn Hxlt Hylt)
    as (w' & Hmode' & Hag & Hsat).
  assert (Hnext : next_var s = length w) by (unfold next_var; rewrite Hmode; reflexivity).
  eexists; eexists; eexists; exists w'.
  split; [apply compareCompatible_run; [exact Hn | exact Hchk]|].
  split; [exact Hmode'|].
  split; [rewrite gates_compare_state3, Hnext by lia; reflexivity|].
  split; [exact Hsat|].
  rewrite next_var_compare_state2, Hnext. cbn [toField].
  rewrite <- (eval_agree _ _ _ x Hx Hag), <- (eval_agree _ _ _ y Hy Hag) in *.
  apply compare_forced; assumption.
Qed.

(** C3: in prover mode, with bit length 8 (which the field must allow),
    [compareCompatible] returns [lessOrEqual = 1, less = 0] on the values
    5 and 5, [lessOrEqual = 1, less = 1] on 3 and 9, and
    [lessOrEqual = 0, less = 0] on 9 and 3. *)
Theorem compareCompatible_examples :
  8 <= Fp_sizeInBits - 2 ->
  compares_to 5 5 8 1 0 /\ compares_to 3 9 8 1 1 /\ compares_to 9 3 8 0 0.
Proof.
  intros Hmax.
  assert (Hgen : forall x0 y0, x0 < 2 ^ 8 -> y0 < 2 ^ 8 ->
            compares_to x0 y0 8 (flag (x0 <=? y0)) (flag (x0 <? y0))).
  { intros x0 y0 Hx0 Hy0 x y s w Hmode Hx Hy Ex Ey.
    destruct (compareCompatible_prover s w x y 8 Hmode Hx Hy ltac:(lia))
      as (le & lt & s' & w' & Hrun & Hmode' & _ & _ & Hle & Hlt);
      [rewrite Ex; exact Hx0 | rewrite Ey; exact Hy0 |].
    exists le, lt, s', w'. rewrite Ex, Ey in *. auto. }
  split; [|split].
  - apply (Hgen 5 5); reflexivity.
  - apply (Hgen 3 9); reflexivity.
  - apply (Hgen 9 3); reflexivity.
Qed.

(** ** Which wires carry an explicit 0/1 constraint *)

Lemma compareCompatible_ok_inv x y n s r s' :
  compareCompatible x y n s = Ok r s' ->
  0 <= n <= Fp_sizeInBits - 2 /\
  r = (createBool (Var (next_var s + Z.to_nat n)),
       createBool (Var (next_var s + Z.to_nat (n + 1) + 2))) /\
  s' = compare_state3 s x y n.
Proof.
  intros Hrun.
  destruct (compareCompatible_outcome x y n s)
    as [(_ & H) | [(_ & _ & x0 & y0 & H) | [(_ & H) | [(_ & H) | (Hn & _ & H)]]]];
    rewrite H in Hrun; try discriminate.
  rewrite next_var_compare_state2 in Hrun.
  injection Hrun as <- <-. repeat split; lia.
Qed.

Lemma unpack_ok_nonneg x len s bits s' :
  unpack x len s = Ok bits s' -> 0 <= len.
Proof.
  intros Hrun. destruct (Z_lt_le_dec len 0) as [Hneg | Hpos]; [|exact Hpos].
  rewrite unpack_negative in Hrun by assumption. discriminate.
Qed.

Lemma unpack_bits_explicit n0 k x :
  Forall (fun b => explicitly_boolean b (unpack_gates n0 k x))
         (map createBool (fresh n0 k)).
Proof.
  apply Forall_map, Forall_forall. intros b Hb.
  unfold explicitly_boolean, unpack_gates. cbn [toField].
  apply in_or_app. left. apply in_map. exact Hb.
Qed.

Lemma boolean_gate_of_compare n0 x y n v :
  In (Boolean v) (compare_gates n0 x y n) ->
  exists i, v = Var i /\ (n0 <= i < n0 + Z.to_nat (n + 1))%nat.
Proof.
  unfold compare_gates, unpack_gates, isZero_gates, fresh. cbv zeta.
  intros Hin. apply in_app_or in Hin. destruct Hin as [Hin | Hin].
  - apply in_app_or in Hin. destruct Hin as [Hin | [H | []]]; [|discriminate].
    apply in_map_iff in Hin. destruct Hin as (f & Hf & Hin).
    apply in_map_iff in Hin. destruct Hin as (i & Hi & Hin).
    exists i. split; [congruence|]. apply in_seq in Hin. lia.
  - apply in_app_or in Hin.
    destruct Hin as [[H | [H | []]] | [H | []]]; discriminate.
Qed.

(** Both wires of [compareCompatible] are 0 or 1 in every assignment that
    satisfies its constraints: [lessOrEqual] by its own boolean
    constraint, [less] as a product of two such values. *)
Lemma compare_boolean rho n0 x y n :
  0 <= n ->
  satisfies rho (compare_gates n0 x y n) ->
  is_bit (eval rho (Var (n0 + Z.to_nat n))) /\
  is_bit (eval rho (Var (n0 + Z.to_nat (n + 1) + 2))).
Proof.
  intros Hn Hsat. pose proof p_gt_1 as Hp.
  unfold compare_gates in Hsat. cbv zeta in Hsat.
  apply satisfies_app in Hsat. destruct Hsat as [H1 H23].
  apply satisfies_app in H23. destruct H23 as [H2 H3].
  destruct (unpack_forced rho n0 _ (n + 1) ltac:(lia) H1) as (Hbits & _ & _).
  assert (Hle : is_bit (eval rho (Var (n0 + Z.to_nat n)))).
  { rewrite values_createBool, Forall_map in Hbits.
    rewrite Forall_forall in Hbits. apply Hbits.
    unfold fresh. apply in_map, in_seq. lia. }
  split; [exact Hle|].
  apply isZero_forced in H2.
  unfold satisfies in H3. rewrite Forall_cons_iff in H3. destruct H3 as [H3 _].
  cbn [holds] in H3. rewrite <- H3, eval_Bool_not. cbn [toField]. rewrite H2.
  unfold Fp_mul, zero_flag, is_bit.
  destruct Hle as [-> | ->], (_ =? 0); simpl;
    rewrite ?Z.mod_0_l, ?(Z.mod_small 1 p) by lia; simpl;
    rewrite ?Z.mod_0_l, ?(Z.mod_small 1 p) by lia; auto.
Qed.

(** C9, as amended: the bits returned by [unpack], and with them the wire
    [lessOrEqual] of [compareCompatible], get an explicit boolean
    constraint when they are created.  The wires returned by [isZero] and
    [any] and the wire [less] of [compareCompatible] get none: that they
    are 0 or 1 follows from the multiplication constraints. *)
Theorem boolean_wires_enforced :
  (forall x len s,
     (0 <= len -> exists bits s', unpack x len s = Ok bits s') /\
     forall bits s',
       unpack x len s = Ok bits s' ->
       gates s' = gates s ++ unpack_gates (next_var s) (Z.to_nat len) x /\
       Forall (fun b => explicitly_boolean b
                          (unpack_gates (next_var s) (Z.to_nat len) x)) bits) /\
  (forall x y n s lessOrEqual less s',
     compareCompatible x y n s = Ok (lessOrEqual, less) s' ->
     let new := compare_gates (next_var s) x y n in
     gates s' = gates s ++ new /\
     explicitly_boolean lessOrEqual new /\
     ~ explicitly_boolean less new /\
     forall rho, satisfies rho new ->
       is_bit (eval rho (toField lessOrEqual)) /\
       is_bit (eval rho (toField less))) /\
  (forall x s,
     exists b s',
       isZero x s = Ok b s' /\
       gates s' = gates s ++ isZero_gates (next_var s) x /\
       ~ explicitly_boolean b (isZero_gates (next_var s) x) /\
       forall rho, satisfies rho (isZero_gates (next_var s) x) ->
         is_bit (eval rho (toField b))) /\
  (forall xs s,
     exists r s',
       any xs s = Ok r s' /\
       gates s' = gates s ++ isZero_gates (next_var s) (any_sum xs) /\
       ~ explicitly_boolean r (isZero_gates (next_var s) (any_sum xs)) /\
       forall rho, satisfies rho (isZero_gates (next_var s) (any_sum xs)) ->
         is_bit (eval rho (toField r))).
Proof.
  pose proof p_gt_1 as Hp.
  assert (Hflag : forall v, is_bit (zero_flag v)).
  { intros v. unfold zero_flag, is_bit. destruct (v =? 0); auto. }
  split; [|split; [|split]].
  - intros x len s. split.
    + intros Hlen. eexists; eexists. apply unpack_run. exact Hlen.
    + intros bits s' Hrun.
      pose proof (unpack_ok_nonneg _ _ _ _ _ Hrun) as Hlen.
      rewrite unpack_run in Hrun by assumption. injection Hrun as <- <-.
      split; [reflexivity | apply unpack_bits_explicit].
  - intros x y n s le lt s' Hrun new.
    apply compareCompatible_ok_inv in Hrun. destruct Hrun as (Hn & Hr & ->).
    injection Hr as -> ->. cbn [toField].
    split; [apply gates_compare_state3; lia|]. split; [|split].
    + unfold explicitly_boolean, new, compare_gates. cbn [toField]. cbv zeta.
      apply in_or_app. left. unfold unpack_gates. apply in_or_app. left.
      unfold fresh. apply in_map, in_map, in_seq. lia.
    + unfold explicitly_boolean. cbn [toField]. intros Hin.
      apply boolean_gate_of_compare in Hin. destruct Hin as (i & Hi & Hrange).
      injection Hi as <-. lia.
    + intros rho Hsat. apply (compare_boolean rho _ x y); [lia | exact Hsat].
  - intros x s. eexists; eexists. split; [apply isZero_run|].
    split; [reflexivity|]. split.
    + unfold explicitly_boolean, isZero_gates. simpl. intuition discriminate.
    + intros rho Hsat. cbn [toField]. rewrite (isZero_forced _ _ _ Hsat). apply Hflag.
  - intros xs s. eexists; eexists. split; [apply any_run|].
    split; [reflexivity|]. split.
    + unfold explicitly_boolean, isZero_gates. simpl. intuition discriminate.
    + intros rho Hsat. rewrite eval_Bool_not. cbn [toField].
      rewrite (isZero_forced _ _ _ Hsat).
      destruct (Hflag (eval rho (any_sum xs))) as [-> | ->]; unfold is_bit; simpl.
      * right. apply Z.mod_small; lia.
      * left. apply Z.mod_0_l; lia.
Qed.

(** ** More on [compareCompatible]: what its constraints say *)

(** Whatever the values of [x] and [y], the constraints decode
    [z = 2^n + y - x]: they bound it by [2^(n+1)], make [lessOrEqual] its
    bit [n], and set [less] when a lower bit is set as well. *)
Lemma compare_forced_z rho n0 x y n :
  0 <= n <= Fp_sizeInBits - 2 ->
  satisfies rho (compare_gates n0 x y n) ->
  eval rho (compare_z x y n) < 2 ^ (n + 1) /\
  eval rho (Var (n0 + Z.to_nat n)) = flag (2 ^ n <=? eval rho (compare_z x y n)) /\
  eval rho (Var (n0 + Z.to_nat (n + 1) + 2)) = flag (2 ^ n <? eval rho (compare_z x y n)).
Proof.
  intros Hn Hsat. pose proof p_gt_1 as Hp.
  destruct (max_length_fits n Hn) as [Hfit Hnp].
  pose proof (eval_range rho (compare_z x y n)) as Hzr.
  unfold compare_gates in Hsat. cbv zeta in Hsat.
  apply satisfies_app in Hsat. destruct Hsat as [H1 H23].
  apply satisfies_app in H23. destruct H23 as [H2 H3].
  destruct (unpack_forced rho n0 _ (n + 1) ltac:(lia) H1) as (Hbits & Hlc & Hb).
  set (zv := eval rho (compare_z x y n)) in *.
  set (m := Z.to_nat n) in *.
  assert (Hk : Z.to_nat (n + 1) = S m) by (unfold m; lia).
  rewrite Hk in *.
  set (low := values rho (compare_prefix n0 n)) in *.
  set (bn := eval rho (Var (n0 + m))) in *.
  assert (Hvals : values rho (map createBool (fresh n0 (S m))) = low ++ [bn]).
  { rewrite fresh_S, map_app. unfold values. rewrite map_app. reflexivity. }
  rewrite Hvals in *.
  apply Forall_app in Hbits. destruct Hbits as [Hlow Hbn].
  apply Forall_inv in Hbn.
  assert (Hlen : length low = m).
  { unfold low, values, compare_prefix, fresh.
    rewrite !length_map, length_seq. reflexivity. }
  rewrite weighted_sum_app, Hlen in Hlc, Hb.
  cbn [weighted_sum] in Hlc, Hb. rewrite Nat.add_0_l in Hlc, Hb.
  assert (Hm : Z.of_nat m = n) by (unfold m; lia). rewrite Hm in Hlc, Hb.
  pose proof (weighted_sum_bounds 0 low Hlow) as HL.
  rewrite Hlen, Hm in HL. simpl (Z.of_nat 0) in HL. rewrite Z.pow_0_r in HL.
  set (L := weighted_sum 0 low) in *.
  assert (Hpow : 2 ^ (n + 1) = 2 * 2 ^ n) by (apply Z.pow_succ_r; lia).
  assert (Hpos : 0 < 2 ^ n) by (apply Z.pow_pos_nonneg; lia).
  rewrite Z.mod_small in Hlc by lia.
  assert (Hcount : Z.of_nat (length (compare_prefix n0 n)) < p).
  { unfold compare_prefix, fresh. rewrite !length_map, length_seq. fold m. lia. }
  destruct (any_forced rho _ _ Hcount Hlow H2) as [Hr Hany].
  rewrite <- sum_values_positive in Hany by assumption.
  rewrite <- (weighted_sum_zero_iff 0) in Hany by assumption.
  fold low L in Hany.
  set (r := eval rho (toField (Bool_not (createBool (Var (n0 + S m)))))) in *.
  unfold satisfies in H3. rewrite Forall_cons_iff in H3. destruct H3 as [H3 _].
  cbn [holds] in H3. fold bn r in H3. rewrite <- H3. unfold Fp_mul.
  split; [lia|]. unfold flag.
  destruct (Z.leb_spec (2 ^ n) zv), (Z.ltb_spec (2 ^ n) zv),
           Hbn as [Hbn | Hbn], Hr as [Hr | Hr];
    rewrite ?Hbn, ?Hr in *; simpl;
    rewrite ?Z.mod_0_l, ?(Z.mod_small 1 p) by lia; lia.
Qed.

(** Any assignment under which [z] stays below [2^(n+1)] extends to one
    that satisfies the constraints. *)
Lemma compare_satisfiable rho n0 x y n :
  0 <= n <= Fp_sizeInBits - 2 ->
  wf n0 x -> wf n0 y ->
  eval rho (compare_z x y n) < 2 ^ (n + 1) ->
  satisfiable_from n0 rho (compare_gates n0 x y n).
Proof.
  intros Hn Hx Hy Hz.
  set (w := map rho (seq 0 n0)).
  assert (Hlen : length w = n0) by (unfold w; rewrite length_map, length_seq; reflexivity).
  pose proof (agree_snapshot n0 rho) as Hsnap. fold w in Hsnap.
  destruct (compare_prover_z (mkState (Prove w) []) w x y n eq_refl) as (w' & _ & Hag & Hsat);
    try (rewrite Hlen; assumption); try assumption.
  - rewrite (eval_agree n0 rho (lookup w)); [assumption | | assumption].
    apply wf_compare_z; assumption.
  - rewrite Hlen in *. exists (lookup w'). split; [|exact Hsat].
    eapply agree_trans; [| exact Hsnap | exact Hag]. lia.
Qed.

Lemma compareCompatible_gates x y n s r s' :
  compareCompatible x y n s = Ok r s' ->
  0 <= n <= Fp_sizeInBits - 2 /\
  r = (createBool (Var (next_var s + Z.to_nat n)),
       createBool (Var (next_var s + Z.to_nat (n + 1) + 2))) /\
  gates s' = gates s ++ compare_gates (next_var s) x y n.
Proof.
  intros Hrun. apply compareCompatible_ok_inv in Hrun.
  destruct Hrun as (Hn & Hr & ->). split; [exact Hn|]. split; [exact Hr|].
  apply gates_compare_state3. lia.
Qed.

(** X1: the constraints of [compareCompatible], for any values of [x] and
    [y]: [z = 2^n + y - x] (in the field) is below [2^(n+1)],
    [lessOrEqual] is 1 exactly when [z >= 2^n], and [less] is 1 exactly
    when [z > 2^n]. *)
Theorem compareCompatible_decodes_z (x y : Field) (n : Z) (s : State)
    (lessOrEqual less : Bool) (s' : State) :
  compareCompatible x y n s = Ok (lessOrEqual, less) s' ->
  exists new,
    gates s' = gates s ++ new /\
    forall rho, satisfies rho new ->
      let z := (2 ^ n + eval rho y - eval rho x) mod p in
      z < 2 ^ (n + 1) /\
      eval rho (toField lessOrEqual) = flag (2 ^ n <=? z) /\
      eval rho (toField less) = flag (2 ^ n <? z).
Proof.
  intros Hrun. apply compareCompatible_gates in Hrun.
  destruct Hrun as (Hn & Hr & Hg). injection Hr as -> ->.
  exists (compare_gates (next_var s) x y n). split; [exact Hg|].
  intros rho Hsat z. unfold z. rewrite <- eval_compare_z by lia.
  cbn [toField]. apply compare_forced_z; assumption.
Qed.

(** X2: soundness.  In every assignment that satisfies the constraints of
    [compareCompatible] and gives [x] and [y] values below [2^n],
    [lessOrEqual] is the truth value of [x <= y] and [less] that of
    [x < y], in whichever mode the gadget ran. *)
Theorem compareCompatible_sound (x y : Field) (n : Z) (s : State)
    (lessOrEqual less : Bool) (s' : State) :
  compareCompatible x y n s = Ok (lessOrEqual, less) s' ->
  exists new,
    gates s' = gates s ++ new /\
    forall rho, satisfies rho new ->
      eval rho x < 2 ^ n -> eval rho y < 2 ^ n ->
      eval rho (toField lessOrEqual) = flag (eval rho x <=? eval rho y) /\
      eval rho (toField less) = flag (eval rho x <? eval rho y).
Proof.
  intros Hrun. apply compareCompatible_gates in Hrun.
  destruct Hrun as (Hn & Hr & Hg). injection Hr as -> ->.
  exists (compare_gates (next_var s) x y n). split; [exact Hg|].
  intros rho Hsat Hx Hy. cbn [toField]. apply compare_forced; assumption.
Qed.

(** X3: the constraints of [compareCompatible] can be satisfied, leaving
    the earlier variables as they are, exactly when [2^n + y - x] (in the
    field) is below [2^(n+1)]; in particular always when [x] and [y] are
    below [2^n]. *)
Theorem compareCompatible_satisfiable_iff (x y : Field) (n : Z) (s : State)
    (r : Bool * Bool) (s' : State) :
  wf (next_var s) x -> wf (next_var s) y ->
  compareCompatible x y n s = Ok r s' ->
  exists new,
    gates s' = gates s ++ new /\
    (forall rho,
       satisfiable_from (next_var s) rho new <->
       (2 ^ n + eval rho y - eval rho x) mod p < 2 ^ (n + 1)) /\
    (forall rho, eval rho x < 2 ^ n -> eval rho y < 2 ^ n ->
       satisfiable_from (next_var s) rho new).
Proof.
  intros Hx Hy Hrun. apply compareCompatible_gates in Hrun.
  destruct Hrun as (Hn & _ & Hg).
  exists (compare_gates (next_var s) x y n). split; [exact Hg|].
  pose proof (wf_compare_z _ x y n Hx Hy) as Hwfz.
  assert (Hiff : forall rho,
            satisfiable_from (next_var s) rho (compare_gates (next_var s) x y n) <->
            (2 ^ n + eval rho y - eval rho x) mod p < 2 ^ (n + 1)).
  { intros rho. rewrite <- eval_compare_z by lia. split.
    - intros (rho' & Hag & Hsat).
      rewrite <- (eval_agree _ rho rho' _ Hwfz Hag).
      apply (compare_forced_z rho' (next_var s) x y n Hn Hsat).
    - intros Hz. apply compare_satisfiable; assumption. }
  split; [exact Hiff|].
  intros rho Hxlt Hylt. apply Hiff.
  pose proof (eval_range rho x). pose proof (eval_range rho y).
  destruct (max_length_fits n Hn) as [Hfit _].
  assert (Hpow : 2 ^ (n + 1) = 2 * 2 ^ n) by (apply Z.pow_succ_r; lia).
  rewrite Z.mod_small; lia.
Qed.

(** X4: outside the range the gadget is not sound.  If [x] exceeds [y] by
    more than [p - 2^n] (so [x] has more than [n] bits), the difference
    wraps around: the constraints are satisfiable, and every assignment
    that satisfies them sets both [lessOrEqual] and [less], although
    [x > y]. *)
Theorem compareCompatible_wraps_around (x y : Field) (n : Z) (s : State)
    (lessOrEqual less : Bool) (s' : State) :
  wf (next_var s) x -> wf (next_var s) y ->
  compareCompatible x y n s = Ok (lessOrEqual, less) s' ->
  exists new,
    gates s' = gates s ++ new /\
    forall rho,
      p - 2 ^ n < eval rho x - eval rho y ->
      satisfiable_from (next_var s) rho new /\
      forall rho', agree (next_var s) rho rho' -> satisfies rho' new ->
        eval rho' y < eval rho' x /\
        eval rho' (toField lessOrEqual) = 1 /\
        eval rho' (toField less) = 1.
Proof.
  intros Hx Hy Hrun. apply compareCompatible_gates in Hrun.
  destruct Hrun as (Hn & Hr & Hg). injection Hr as -> ->.
  exists (compare_gates (next_var s) x y n). split; [exact Hg|].
  intros rho Hd. pose proof p_gt_1 as Hp.
  destruct (max_length_fits n Hn) as [Hfit _].
  assert (Hpow : 2 ^ (n + 1) = 2 * 2 ^ n) by (apply Z.pow_succ_r; lia).
  assert (Hpos : 0 < 2 ^ n) by (apply Z.pow_pos_nonneg; lia).
  pose proof (eval_range rho x) as Hxr. pose proof (eval_range rho y) as Hyr.
  assert (Hz : eval rho (compare_z x y n) = 2 ^ n + eval rho y - eval rho x + p).
  { rewrite eval_compare_z by lia.
    rewrite <- (Z.mod_small (2 ^ n + eval rho y - eval rho x + p) p) by lia.
    replace (2 ^ n + eval rho y - eval rho x + p)
      with (2 ^ n + eval rho y - eval rho x + 1 * p) by lia.
    symmetry. apply Z.mod_add. lia. }
  split.
  - apply compare_satisfiable; try assumption. rewrite Hz. lia.
  - intros rho' Hag Hsat.
    pose proof (wf_compare_z _ x y n Hx Hy) as Hwfz.
    destruct (compare_forced_z rho' (next_var s) x y n Hn Hsat) as (_ & Hle & Hlt).
    rewrite (eval_agree _ rho rho' _ Hwfz Hag), Hz in Hle, Hlt.
    rewrite (eval_agree _ rho rho' x Hx Hag), (eval_agree _ rho rho' y Hy Hag).
    cbn [toField]. rewrite Hle, Hlt. unfold flag.
    destruct (Z.leb_spec (2 ^ n) (2 ^ n + eval rho y - eval rho x + p)),
             (Z.ltb_spec (2 ^ n) (2 ^ n + eval rho y - eval rho x + p)); lia.
Qed.

(** X5: a prover run with a proper bit length.  On inputs below [2^n]
    the gadget returns; the witness it has built satisfies every
    constraint it has added, and the two wires carry the truth values of
    [x <= y] and [x < y].  If an input has more than [n] bits the guard
    throws, in the state the gadget was called in. *)
Theorem compareCompatible_prover_outcome (x y : Field) (n : Z) (s : State)
    (w : list Z) :
  mode s = Prove w ->
  wf (length w) x -> wf (length w) y ->
  0 <= n <= Fp_sizeInBits - 2 ->
  (eval (lookup w) x < 2 ^ n /\ eval (lookup w) y < 2 ^ n ->
   exists lessOrEqual less s' w',
     compareCompatible x y n s = Ok (lessOrEqual, less) s' /\
     mode s' = Prove w' /\
     gates s' = gates s ++ compare_gates (length w) x y n /\
     satisfies (lookup w') (compare_gates (length w) x y n) /\
     eval (lookup w') (toField lessOrEqual) =
       flag (eval (lookup w) x <=? eval (lookup w) y) /\
     eval (lookup w') (toField less) =
       flag (eval (lookup w) x <? eval (lookup w) y)) /\
  (2 ^ n <= eval (lookup w) x \/ 2 ^ n <= eval (lookup w) y ->
   compareCompatible x y n s =
     Throw (ComparisonOutOfRange (2 ^ n) (eval (lookup w) x) (eval (lookup w) y)) s).
Proof.
  intros Hmode Hx Hy Hn. split.
  - intros [Hxlt Hylt]. apply compareCompatible_prover; assumption.
  - intros Hge. rewrite compareCompatible_guard by lia.
    rewrite (checkRangesAsProver_prove x y _ s w Hmode), Z.shiftl_1_l.
    destruct (Z.geb_spec (eval (lookup w) x) (2 ^ n)),
             (Z.geb_spec (eval (lookup w) y) (2 ^ n)); simpl; try reflexivity; lia.
Qed.

(** ** More on [unpack]: which bits the constraints allow *)

Lemma bit_spec v j :
  Z.land (Z.shiftr v (Z.of_nat j)) 1 = (v / 2 ^ Z.of_nat j) mod 2.
Proof.
  change 1 with (Z.ones 1) at 1. rewrite Z.land_ones by lia.
  rewrite Z.shiftr_div_pow2 by lia. reflexivity.
Qed.

Lemma weighted_sum_S i0 vals : weighted_sum (S i0) vals = 2 * weighted_sum i0 vals.
Proof.
  revert i0. induction vals as [| v vs IH]; intros i0; cbn [weighted_sum]; [lia|].
  rewrite (IH (S i0)), Nat2Z.inj_succ, Z.pow_succ_r by lia. ring.
Qed.

(** A sequence of bits is the sequence of binary digits of its weighted
    sum. *)
Lemma binary_digits_unique vals v :
  Forall is_bit vals -> weighted_sum 0 vals = v ->
  vals = map (fun k => Z.land (Z.shiftr v (Z.of_nat k)) 1) (seq 0 (length vals)).
Proof.
  intros Hbits. revert v.
  induction Hbits as [| b vs Hb Hvs IH]; intros v Hsum; [reflexivity|].
  cbn [weighted_sum] in Hsum. rewrite weighted_sum_S in Hsum.
  simpl (Z.of_nat 0) in Hsum. rewrite Z.pow_0_r, Z.mul_1_l in Hsum.
  assert (Hhalf : v / 2 = weighted_sum 0 vs).
  { symmetry. apply (Z.div_unique v 2 _ b); [destruct Hb; lia | lia]. }
  cbn [length seq map]. f_equal.
  - rewrite bit_spec. simpl (Z.of_nat 0). rewrite Z.pow_0_r, Z.div_1_r.
    apply (Z.mod_unique v 2 (weighted_sum 0 vs) b); [destruct Hb; lia | lia].
  - rewrite (IH (v / 2)) at 1 by (symmetry; exact Hhalf).
    rewrite <- seq_shift, map_map. apply map_ext. intros k.
    rewrite !bit_spec, Nat2Z.inj_succ, Z.pow_succ_r by lia.
    rewrite Z.div_div by (try lia; apply Z.pow_pos_nonneg; lia).
    reflexivity.
Qed.

(** X6: below the field size the decomposition is unique.  If
    [2^length <= p], every assignment that satisfies the constraints of
    [unpack(x, length)] gives the returned wires the binary digits of [x],
    least significant first: bit [k] is [(x >> k) & 1]. *)
Theorem unpack_bits_are_digits (x : Field) (length : Z) (s : State) :
  0 <= length -> 2 ^ length <= p ->
  exists bits s',
    unpack x length s = Ok bits s' /\
    gates s' = gates s ++ unpack_gates (next_var s) (Z.to_nat length) x /\
    forall rho,
      satisfies rho (unpack_gates (next_var s) (Z.to_nat length) x) ->
      values rho bits =
        map (fun k => Z.land (Z.shiftr (eval rho x) (Z.of_nat k)) 1)
            (seq 0 (Z.to_nat length)).
Proof.
  intros Hlen Hfit. eexists; eexists. split; [apply unpack_run; assumption|].
  split; [reflexivity|]. intros rho Hsat.
  destruct (unpack_forced rho _ x length Hlen Hsat) as (Hbits & Hlc & Hb).
  rewrite Z.mod_small in Hlc by lia.
  rewrite (binary_digits_unique _ _ Hbits Hlc) at 1.
  unfold values, fresh. rewrite !length_map, length_seq. reflexivity.
Qed.

Lemma extend_values rho n vals :
  Forall (fun v => 0 <= v < p) vals ->
  map (eval (extend rho n vals)) (fresh n (length vals)) = vals.
Proof.
  intros Hvals. unfold fresh. rewrite (seq_from n), !map_map.
  set (F := fun j => eval (extend rho n vals) (Var (n + j))).
  apply (nth_ext _ _ (F 0%nat) 0).
  - rewrite length_map, length_seq. reflexivity.
  - intros i Hi. rewrite length_map, length_seq in Hi.
    rewrite (map_nth F), seq_nth by assumption. unfold F. cbn [eval].
    rewrite extend_at. simpl (0 + i)%nat.
    rewrite Forall_forall in Hvals. apply Z.mod_small, Hvals, nth_In. exact Hi.
Qed.

(** The binary digits of any [v] below [2^length] that is congruent to
    [x] satisfy the constraints of [unpack]. *)
Lemma unpack_extend_digits rho n x len v :
  0 <= len -> wf n x -> 0 <= v < 2 ^ len -> v mod p = eval rho x ->
  let digits := map (fun k => Z.land (Z.shiftr v (Z.of_nat k)) 1)
                    (seq 0 (Z.to_nat len)) in
  satisfies (extend rho n digits) (unpack_gates n (Z.to_nat len) x) /\
  map (eval (extend rho n digits)) (fresh n (Z.to_nat len)) = digits /\
  weighted_sum 0 digits = v.
Proof.
  intros Hlen Hwf Hv Hcong digits. pose proof p_gt_1 as Hp.
  assert (Hl : length digits = Z.to_nat len)
    by (unfold digits; rewrite length_map, length_seq; reflexivity).
  assert (Hbits : Forall is_bit digits).
  { unfold digits. apply Forall_map, Forall_forall. intros j _. apply bit_is_bit. }
  assert (Hvals : map (eval (extend rho n digits)) (fresh n (Z.to_nat len)) = digits).
  { rewrite <- Hl. apply extend_values.
    eapply Forall_impl; [|exact Hbits]. intros b [-> | ->]; lia. }
  assert (Hsum : weighted_sum 0 digits = v).
  { unfold digits. rewrite weighted_sum_bits. simpl (Z.of_nat 0).
    rewrite Z.pow_0_r, Z.div_1_r, Z.mul_1_l, Z2Nat.id by lia.
    apply Z.mod_small. exact Hv. }
  split; [|split; assumption].
  unfold unpack_gates. apply unpack_gates_iff. rewrite Hvals.
  split; [exact Hbits|]. rewrite Hsum, Hcong.
  symmetry. apply (eval_agree n); [assumption | apply extend_agree].
Qed.

(** X7: beyond the field size the decomposition is not unique.  Whenever
    [x + p < 2^length], the constraints of [unpack(x, length)] are
    satisfied by the binary digits of [x] and also by those of [x + p],
    which are different bits. *)
Theorem unpack_ambiguous_beyond_field (x : Field) (length : Z) (s : State) :
  0 <= length -> wf (next_var s) x ->
  exists bits s',
    unpack x length s = Ok bits s' /\
    gates s' = gates s ++ unpack_gates (next_var s) (Z.to_nat length) x /\
    forall rho,
      eval rho x + p < 2 ^ length ->
      exists rho1 rho2,
        agree (next_var s) rho rho1 /\ agree (next_var s) rho rho2 /\
        satisfies rho1 (unpack_gates (next_var s) (Z.to_nat length) x) /\
        satisfies rho2 (unpack_gates (next_var s) (Z.to_nat length) x) /\
        weighted_sum 0 (values rho1 bits) = eval rho x /\
        weighted_sum 0 (values rho2 bits) = eval rho x + p /\
        values rho1 bits <> values rho2 bits.
Proof.
  intros Hlen Hwf. pose proof p_gt_1 as Hp.
  eexists; eexists. split; [apply unpack_run; assumption|]. split; [reflexivity|].
  intros rho Hroom. pose proof (eval_range rho x) as Hx.
  destruct (unpack_extend_digits rho (next_var s) x length (eval rho x))
    as (Hsat1 & Hvals1 & Hsum1); try assumption; [lia | apply eval_mod |].
  destruct (unpack_extend_digits rho (next_var s) x length (eval rho x + p))
    as (Hsat2 & Hvals2 & Hsum2); try assumption; [lia | |].
  { replace (eval rho x + p) with (eval rho x + 1 * p) by lia.
    rewrite Z.mod_add by lia. apply eval_mod. }
  eexists; eexists.
  split; [apply extend_agree|]. split; [apply extend_agree|].
  split; [exact Hsat1|]. split; [exact Hsat2|].
  rewrite !values_createBool, Hvals1, Hvals2.
  split; [exact Hsum1|]. split; [exact Hsum2|].
  intros Heq. rewrite Heq in Hsum1. lia.
Qed.

(** ** More on the generic comparators: what they assert without the
    preconditions *)

(** X8: without any assumption on [x], [y] or [c], what
    [assertLessThanOrEqualGeneric] asserts is that [y - x], taken in the
    field, lies in [[0, c)]. *)
Theorem assertLessThanOrEqualGeneric_asserts
    (rangeCheck : Field -> Circuit unit) (c : Z) (x y : Field) (s : State) :
  asserts_range rangeCheck c (inProver s) ->
  wf (next_var s) x -> wf (next_var s) y ->
  exists s' new,
    assertLessThanOrEqualGeneric x y rangeCheck s = Ok tt s' /\
    gates s' = gates s ++ new /\
    forall rho,
      satisfiable_from (next_var s) rho new <->
      (eval rho y - eval rho x) mod p < c.
Proof.
  intros Hrc Hx Hy. pose proof p_gt_1 as Hp.
  destruct (sealed_rangeCheck rangeCheck c (sub y x) s Hrc (wf_sub _ _ _ Hy Hx))
    as (s' & new & Hrun & Hg & Hspec).
  exists s', new. split; [exact Hrun|]. split; [exact Hg|].
  intros rho. rewrite Hspec, eval_sub.
  pose proof (Z.mod_pos_bound (eval rho y - eval rho x) p). lia.
Qed.

(** X9: without any assumption on [x], [y] or [c], what
    [assertLessThanGeneric] asserts is that [y - 1 - x], taken in the
    field, lies in [[0, c)]. *)
Theorem assertLessThanGeneric_asserts
    (rangeCheck : Field -> Circuit unit) (c : Z) (x y : Field) (s : State) :
  asserts_range rangeCheck c (inProver s) ->
  wf (next_var s) x -> wf (next_var s) y ->
  exists s' new,
    assertLessThanGeneric x y rangeCheck s = Ok tt s' /\
    gates s' = gates s ++ new /\
    forall rho,
      satisfiable_from (next_var s) rho new <->
      (eval rho y - 1 - eval rho x) mod p < c.
Proof.
  intros Hrc Hx Hy. pose proof p_gt_1 as Hp.
  assert (Hwf : wf (next_var s) (sub (sub y (createField 1)) x)).
  { apply wf_sub; [apply wf_sub|]; simpl; auto. }
  destruct (sealed_rangeCheck rangeCheck c _ s Hrc Hwf)
    as (s' & new & Hrun & Hg & Hspec).
  exists s', new. split; [exact Hrun|]. split; [exact Hg|].
  intros rho. rewrite Hspec, !eval_sub, eval_createField.
  rewrite Zminus_mod_idemp_r, Zminus_mod_idemp_l.
  pose proof (Z.mod_pos_bound (eval rho y - 1 - eval rho x) p). lia.
Qed.

(** X10: the pitfall the source warns of.  When [x > y], the constraints
    of [assertLessThanOrEqualGeneric] are nevertheless satisfiable exactly
    when [x - y > p - c], and those of [assertLessThanGeneric], when
    [x >= y], exactly when [x - y >= p - c]: a difference that large
    wraps around into [[0, c)].  It cannot happen for [x], [y] in
    [[0, c)] with [2c <= p]. *)
Theorem comparators_wrap_around
    (rangeCheck : Field -> Circuit unit) (c : Z) (x y : Field) (s : State) :
  asserts_range rangeCheck c (inProver s) ->
  wf (next_var s) x -> wf (next_var s) y ->
  (exists s' new,
     assertLessThanOrEqualGeneric x y rangeCheck s = Ok tt s' /\
     gates s' = gates s ++ new /\
     forall rho, eval rho y < eval rho x ->
       (satisfiable_from (next_var s) rho new <-> p - c < eval rho x - eval rho y)) /\
  (exists s' new,
     assertLessThanGeneric x y rangeCheck s = Ok tt s' /\
     gates s' = gates s ++ new /\
     forall rho, eval rho y <= eval rho x ->
       (satisfiable_from (next_var s) rho new <-> p - c <= eval rho x - eval rho y)).
Proof.
  intros Hrc Hx Hy. pose proof p_gt_1 as Hp.
  assert (Hwrap : forall d, - p <= d < 0 -> d mod p = d + p).
  { intros d Hd. rewrite <- (Z.mod_small (d + p) p) by lia.
    replace (d + p) with (d + 1 * p) by lia. symmetry. apply Z.mod_add. lia. }
  split.
  - destruct (sealed_rangeCheck rangeCheck c (sub y x) s Hrc (wf_sub _ _ _ Hy Hx))
      as (s' & new & Hrun & Hg & Hspec).
    exists s', new. split; [exact Hrun|]. split; [exact Hg|].
    intros rho Hlt. rewrite Hspec, eval_sub.
    pose proof (eval_range rho x). pose proof (eval_range rho y).
    rewrite Hwrap by lia. lia.
  - assert (Hwf : wf (next_var s) (sub (sub y (createField 1)) x)).
    { apply wf_sub; [apply wf_sub|]; simpl; auto. }
    destruct (sealed_rangeCheck rangeCheck c _ s Hrc Hwf)
      as (s' & new & Hrun & Hg & Hspec).
    exists s', new. split; [exact Hrun|]. split; [exact Hg|].
    intros rho Hle. rewrite Hspec, !eval_sub, eval_createField.
    rewrite Zminus_mod_idemp_r, Zminus_mod_idemp_l.
    pose proof (eval_range rho x). pose proof (eval_range rho y).
    rewrite Hwrap by lia. lia.
Qed.

(** ** More on [any] *)

(** X11: for wires of any values and in any number, what [any] tests is
    the sum of the wires in the field: the result is 1 if that sum is not
    zero and 0 if it is. *)
Theorem any_tests_field_sum (xs : list Bool) (s : State) :
  exists r s',
    any xs s = Ok r s' /\
    gates s' = gates s ++ isZero_gates (next_var s) (any_sum xs) /\
    forall rho,
      satisfies rho (isZero_gates (next_var s) (any_sum xs)) ->
      eval rho (toField r) =
        flag (negb (sum_values (values rho xs) mod p =? 0)).
Proof.
  pose proof p_gt_1 as Hp.
  eexists; eexists. split; [apply any_run|]. split; [reflexivity|].
  intros rho Hsat. rewrite eval_Bool_not. cbn [toField].
  rewrite (isZero_forced _ _ _ Hsat), eval_any_sum.
  unfold zero_flag, flag. destruct (_ =? 0); simpl.
  - apply Z.mod_0_l. lia.
  - apply Z.mod_small. lia.
Qed.

(** ** The state around a run of [compareCompatible] *)

Lemma mode_allocate_prove m w k compute :
  m = Prove w -> allocate m k compute = Prove (w ++ map (fun v => v mod p) (compute w)).
Proof. intros ->. reflexivity. Qed.

Lemma inProver_allocate m k compute :
  match allocate m k compute with Compile _ => false | Prove _ => true end =
  match m with Compile _ => false | Prove _ => true end.
Proof. destruct m; reflexivity. Qed.

(** X13: the constraint shape does not depend on the mode or on the
    witness.  Two runs of [compareCompatible] on the same arguments that
    start with the same number of variables and both return, return the
    same wires, append the same constraints and end with the same number
    of variables. *)
Theorem compareCompatible_shape (x y : Field) (n : Z) (s1 s2 : State)
    (r1 r2 : Bool * Bool) (s1' s2' : State) :
  next_var s1 = next_var s2 ->
  compareCompatible x y n s1 = Ok r1 s1' ->
  compareCompatible x y n s2 = Ok r2 s2' ->
  r1 = r2 /\
  next_var s1' = next_var s2' /\
  exists new, gates s1' = gates s1 ++ new /\ gates s2' = gates s2 ++ new.
Proof.
  intros Hnext Hrun1 Hrun2.
  pose proof (compareCompatible_gates _ _ _ _ _ _ Hrun1) as (_ & Hr1 & Hg1).
  pose proof (compareCompatible_gates _ _ _ _ _ _ Hrun2) as (_ & Hr2 & Hg2).
  apply compareCompatible_ok_inv in Hrun1, Hrun2.
  destruct Hrun1 as (_ & _ & ->), Hrun2 as (_ & _ & ->).
  split; [rewrite Hr1, Hr2, Hnext; reflexivity|]. split.
  - unfold compare_state3. cbv zeta.
    rewrite (next_var_allocate (compare_state2 s1 x y n) 1) by reflexivity.
    rewrite (next_var_allocate (compare_state2 s2 x y n) 1) by reflexivity.
    rewrite !next_var_compare_state2, Hnext. reflexivity.
  - exists (compare_gates (next_var s2) x y n).
    rewrite Hg1, Hg2, Hnext. split; reflexivity.
Qed.

Lemma compareCompatible_final_state x y n s s' :
  (exists r, compareCompatible x y n s = Ok r s') \/
  (exists e, compareCompatible x y n s = Throw e s') ->
  s' = s \/ s' = compare_state2 s x y n \/ s' = compare_state3 s x y n.
Proof.
  intros Hout.
  destruct (compareCompatible_outcome x y n s)
    as [(_ & H) | [(_ & _ & x0 & y0 & H) | [(_ & H) | [(_ & H) | (_ & _ & H)]]]];
    rewrite H in Hout; destruct Hout as [[r Hr] | [e He]]; try discriminate.
  - left. congruence.
  - left. congruence.
  - left. congruence.
  - right. left. congruence.
  - right. right. congruence.
Qed.

(** X14: [compareCompatible] only ever appends.  However a run ends, by
    returning or by throwing, the constraints that were there are still
    there, followed by the new ones; no variable has been given up; the
    mode is the same; and in prover mode the witness values that were
    there are unchanged, followed by the new ones. *)
Theorem compareCompatible_only_appends (x y : Field) (n : Z) (s s' : State) :
  (exists r, compareCompatible x y n s = Ok r s') \/
  (exists e, compareCompatible x y n s = Throw e s') ->
  (exists new, gates s' = gates s ++ new) /\
  (next_var s <= next_var s')%nat /\
  inProver s' = inProver s /\
  (forall w, mode s = Prove w -> exists ext, mode s' = Prove (w ++ ext)).
Proof.
  intros Hout. apply compareCompatible_final_state in Hout.
  assert (H2 : (exists new, gates (compare_state2 s x y n) = gates s ++ new) /\
               (next_var s <= next_var (compare_state2 s x y n))%nat /\
               inProver (compare_state2 s x y n) = inProver s /\
               (forall w, mode s = Prove w ->
                  exists ext, mode (compare_state2 s x y n) = Prove (w ++ ext))).
  { split; [|split; [|split]].
    - unfold compare_state2, compare_state1. cbn [gates].
      eexists. rewrite <- app_assoc. reflexivity.
    - rewrite next_var_compare_state2. lia.
    - unfold inProver, compare_state2, compare_state1. cbn [mode].
      rewrite !inProver_allocate. reflexivity.
    - intros w Hmode. unfold compare_state2, compare_state1. cbn [mode].
      rewrite (mode_allocate_prove _ w _ _ Hmode).
      rewrite (mode_allocate_prove _ _ _ _ eq_refl).
      eexists. rewrite <- app_assoc. reflexivity. }
  destruct Hout as [-> | [-> | ->]].
  - split; [exists []; rewrite app_nil_r; reflexivity|].
    split; [lia|]. split; [reflexivity|].
    intros w Hmode. exists []. rewrite app_nil_r. exact Hmode.
  - exact H2.
  - destruct H2 as ((new & Hg) & Hnext & Hmode & Hw).
    split; [|split; [|split]].
    + unfold compare_state3. cbv zeta. cbn [gates]. rewrite Hg.
      eexists. rewrite <- app_assoc. reflexivity.
    + unfold compare_state3. cbv zeta.
      rewrite (next_var_allocate (compare_state2 s x y n) 1) by reflexivity. lia.
    + rewrite <- Hmode. unfold inProver, compare_state3. cbv zeta. cbn [mode].
      rewrite inProver_allocate. reflexivity.
    + intros w Hs. destruct (Hw w Hs) as (ext & Hext).
      unfold compare_state3. cbv zeta. cbn [mode].
      rewrite (mode_allocate_prove _ _ _ _ Hext).
      eexists. rewrite <- app_assoc. reflexivity.
Qed.

(** X15: what a prover run of [unpack] that returns has built.  Whatever
    the value of [x], the wires returned carry the [length] low binary
    digits of [x], which recombine to [x mod 2^length]; and the witness
    satisfies the constraints that were added if and only if
    [x < 2^length]. *)
Theorem unpack_prover_bits (x : Field) (length : Z) (s : State) (w : list Z)
    (bits : list Bool) (s' : State) :
  mode s = Prove w -> wf (List.length w) x ->
  unpack x length s = Ok bits s' ->
  exists w',
    mode s' = Prove w' /\
    values (lookup w') bits =
      map (fun k => Z.land (Z.shiftr (eval (lookup w) x) (Z.of_nat k)) 1)
          (seq 0 (Z.to_nat length)) /\
    weighted_sum 0 (values (lookup w') bits) = eval (lookup w) x mod 2 ^ length /\
    (satisfies (lookup w') (unpack_gates (List.length w) (Z.to_nat length) x) <->
     eval (lookup w) x < 2 ^ length).
Proof.
  intros Hmode Hwf Hrun.
  pose proof (unpack_ok_nonneg _ _ _ _ _ Hrun) as Hlen.
  rewrite unpack_run in Hrun by assumption. injection Hrun as <- <-.
  cbn [mode]. rewrite (mode_allocate_prove _ w _ _ Hmode).
  eexists. split; [reflexivity|].
  set (w' := w ++ map (fun v => v mod p) (unpack_compute x length w)).
  assert (Hnext : next_var s = List.length w)
    by (unfold next_var; rewrite Hmode; reflexivity).
  rewrite Hnext.
  assert (Hvals : values (lookup w') (map createBool (fresh (List.length w) (Z.to_nat length))) =
                  map (fun k => Z.land (Z.shiftr (eval (lookup w) x) (Z.of_nat k)) 1)
                      (seq 0 (Z.to_nat length))).
  { rewrite values_createBool.
    rewrite <- (unpack_extend_values (lookup w) (List.length w) x length w eq_refl).
    apply map_ext. intros b. apply eval_ext. intros i. apply lookup_app_extend. }
  split; [exact Hvals|]. split.
  - rewrite Hvals, weighted_sum_bits. simpl (Z.of_nat 0).
    rewrite Z.pow_0_r, Z.div_1_r, Z.mul_1_l, Z2Nat.id by lia. reflexivity.
  - split.
    + intros Hsat.
      destruct (Z_lt_le_dec (eval (lookup w) x) (2 ^ length)) as [Hlt | Hge];
        [exact Hlt | exfalso].
      rewrite <- (eval_agree _ _ (lookup w') x Hwf (agree_lookup_app w _)) in Hge.
      exact (unpack_unsatisfiable _ _ x length Hlen Hge Hsat).
    + intros Hlt. apply unpack_prover; assumption.
Qed.

(** ** More on [isZero]: the whole solution set *)

(** X16: the assignments that satisfy the two constraints of [isZero].
    If [x] is not zero they are those with [b = 0] and [z] the inverse of
    [x]; if [x] is zero they are those with [b = 1], whatever [z] is: the
    flag is determined, the auxiliary witness only where it matters. *)
Theorem isZero_solutions (x : Field) (s : State) :
  exists b s',
    isZero x s = Ok b s' /\
    gates s' = gates s ++ isZero_gates (next_var s) x /\
    forall rho,
      let z := eval rho (Var (S (next_var s))) in
      (eval rho x <> 0 ->
       (satisfies rho (isZero_gates (next_var s) x) <->
        eval rho (toField b) = 0 /\ Fp_mul z (eval rho x) = 1)) /\
      (eval rho x = 0 ->
       (satisfies rho (isZero_gates (next_var s) x) <->
        eval rho (toField b) = 1)).
Proof.
  pose proof p_gt_1 as Hp.
  eexists; eexists. split; [apply isZero_run|]. split; [reflexivity|].
  intros rho z. cbn [toField].
  assert (Hgates : satisfies rho (isZero_gates (next_var s) x) <->
            Fp_mul (eval rho (Var (next_var s))) (eval rho x) = 0 /\
            Fp_mul z (eval rho x) = (1 - eval rho (Var (next_var s))) mod p).
  { unfold satisfies, isZero_gates. rewrite !Forall_cons_iff. cbn [holds].
    rewrite eval_sub, !eval_createField, Z.mod_0_l by lia.
    rewrite Zminus_mod_idemp_l. fold z.
    split; [intros (H1 & H2 & _); auto | intros (H1 & H2); auto]. }
  pose proof (eval_range rho (Var (next_var s))) as Hb.
  pose proof (eval_range rho x) as Hx.
  split.
  - intros Hnz. rewrite Hgates. split.
    + intros (H1 & H2). apply Fp_mul_zero in H1; try assumption.
      destruct H1 as [H1 | H1]; [|contradiction].
      split; [exact H1|]. rewrite H2, H1, Z.sub_0_r. apply Z.mod_small. lia.
    + intros (H1 & H2). rewrite H1, H2, Z.sub_0_r. unfold Fp_mul.
      rewrite Z.mul_0_l, Z.mod_0_l, (Z.mod_small 1 p) by lia. auto.
  - intros Hz. rewrite Hgates, Hz. unfold Fp_mul.
    rewrite !Z.mul_0_r, Z.mod_0_l by lia. split.
    + intros (_ & H2). symmetry in H2.
      destruct (Z.eq_dec (eval rho (Var (next_var s))) 0) as [E | E].
      * rewrite E, Z.sub_0_r, Z.mod_small in H2 by lia. discriminate.
      * apply Z.mod_divide in H2; [|lia].
        assert (Hd : (p | eval rho (Var (next_var s)) - 1)).
        { destruct H2 as [k Hk]. exists (- k). lia. }
        apply small_multiple in Hd; lia.
    + intros H1. rewrite H1. split; [reflexivity|].
      rewrite Z.sub_diag. symmetry. apply Z.mod_0_l. lia.
Qed.

End Gadgets.

(** ** A concrete field *)

Lemma prime_check_sound q : prime_check q = true -> Z.prime q.
Proof.
  unfold prime_check. intros Hchk.
  apply andb_prop in Hchk. destruct Hchk as [Hgt Hall].
  apply Z.ltb_lt in Hgt. split; [exact Hgt|].
  intros n Hn Hdiv. rewrite forallb_forall in Hall.
  specialize (Hall (Z.to_nat n)).
  rewrite Z2Nat.id in Hall by lia.
  assert (Hin : In (Z.to_nat n) (seq 2 (Z.to_nat q - 2))) by (apply in_seq; lia).
  apply Hall in Hin. apply negb_true_iff, Z.eqb_neq in Hin.
  apply Hin. apply Z.mod_divide; [lia | exact Hdiv].
Qed.

(** A prime of ten bits: bit lengths up to 8 are allowed. *)
Lemma prime_1021 : Z.prime 1021.
Proof. apply prime_check_sound. vm_compute. reflexivity. Qed.

(** ** The theorems at work in the field of order 1021 *)

Lemma assertLessThanOrEqualGeneric_correct_witness :
  2 * 8 <= 1021 /\
  exists s' new,
    assertLessThanOrEqualGeneric 1021 (Var 0) (Var 1) (rangeCheck_bits 1021 3) compiling
      = Ok tt s' /\
    gates s' = gates compiling ++ new /\
    forall rho,
      0 <= eval 1021 rho (Var 0) < 8 -> 0 <= eval 1021 rho (Var 1) < 8 ->
      (satisfiable_from 1021 (next_var compiling) rho new <->
       eval 1021 rho (Var 0) <= eval 1021 rho (Var 1)).
Proof.
  split; [lia|].
  apply (assertLessThanOrEqualGeneric_correct 1021 prime_1021
           (rangeCheck_bits 1021 3) 8 (Var 0) (Var 1) compiling).
  - lia.
  - apply (rangeCheck_bits_asserts 1021 prime_1021 3 false). lia.
  - unfold compiling, proving, next_var; simpl; lia.
  - unfold compiling, proving, next_var; simpl; lia.
Defined.

Lemma assertLessThanGeneric_correct_witness :
  2 * 8 <= 1021 /\
  exists s' new,
    assertLessThanGeneric 1021 (Var 0) (Var 1) (rangeCheck_bits 1021 3) proving
      = Ok tt s' /\
    gates s' = gates proving ++ new /\
    forall rho,
      0 <= eval 1021 rho (Var 0) < 8 -> 0 <= eval 1021 rho (Var 1) < 8 ->
      (satisfiable_from 1021 (next_var proving) rho new <->
       eval 1021 rho (Var 0) < eval 1021 rho (Var 1)).
Proof.
  split; [lia|].
  apply (assertLessThanGeneric_correct 1021 prime_1021
           (rangeCheck_bits 1021 3) 8 (Var 0) (Var 1) proving).
  - lia.
  - apply (rangeCheck_bits_asserts 1021 prime_1021 3 true). lia.
  - unfold compiling, proving, next_var; simpl; lia.
  - unfold compiling, proving, next_var; simpl; lia.
Defined.

Lemma compareCompatible_examples_witness :
  8 <= Fp_sizeInBits 1021 - 2 /\
  compares_to 1021 5 5 8 1 0 /\
  compares_to 1021 3 9 8 1 1 /\
  compares_to 1021 9 3 8 0 0.
Proof.
  split; [vm_compute; discriminate|].
  apply (compareCompatible_examples 1021 prime_1021).
  vm_compute. discriminate.
Defined.

Lemma unpack_correct_witness :
  0 <= 4 /\ wf (next_var proving) (Var 1) /\
  exists bits s',
    unpack 1021 (Var 1) 4 proving = Ok bits s' /\
    Z.of_nat (length bits) = 4 /\
    gates s' = gates proving ++ unpack_gates 1021 2 4 (Var 1) /\
    (forall rho, satisfies 1021 rho (unpack_gates 1021 2 4 (Var 1)) ->
       Forall is_bit (values 1021 rho bits) /\
       weighted_sum 0 (values 1021 rho bits) mod 1021 = eval 1021 rho (Var 1) /\
       (2 ^ 4 <= 1021 -> weighted_sum 0 (values 1021 rho bits) = eval 1021 rho (Var 1))) /\
    (forall rho, eval 1021 rho (Var 1) < 2 ^ 4 ->
       satisfiable_from 1021 2 rho (unpack_gates 1021 2 4 (Var 1))) /\
    (forall rho, 2 ^ 4 <= eval 1021 rho (Var 1) ->
       ~ satisfies 1021 rho (unpack_gates 1021 2 4 (Var 1))) /\
    (forall w, mode proving = Prove w -> eval 1021 (lookup w) (Var 1) < 2 ^ 4 ->
       exists w',
         mode s' = Prove w' /\
         satisfies 1021 (lookup w') (unpack_gates 1021 2 4 (Var 1)) /\
         weighted_sum 0 (values 1021 (lookup w') bits) = eval 1021 (lookup w) (Var 1)).
Proof.
  split; [lia|]. split; [unfold compiling, proving, next_var; simpl; lia|].
  apply (unpack_correct 1021 prime_1021 (Var 1) 4 proving).
  - lia.
  - unfold compiling, proving, next_var; simpl; lia.
Defined.

Lemma isZero_correct_witness :
  wf (next_var proving) (Var 0) /\
  exists b s',
    isZero 1021 (Var 0) proving = Ok b s' /\
    gates s' = gates proving ++ isZero_gates 1021 2 (Var 0) /\
    (forall rho, satisfies 1021 rho (isZero_gates 1021 2 (Var 0)) ->
       eval 1021 rho (toField b) = zero_flag (eval 1021 rho (Var 0))) /\
    (forall rho, satisfiable_from 1021 2 rho (isZero_gates 1021 2 (Var 0))) /\
    (forall w, mode proving = Prove w ->
       exists w', mode s' = Prove w' /\
         satisfies 1021 (lookup w') (isZero_gates 1021 2 (Var 0)) /\
         eval 1021 (lookup w') (toField b) = zero_flag (eval 1021 (lookup w) (Var 0))).
Proof.
  split; [unfold compiling, proving, next_var; simpl; lia|].
  apply (isZero_correct 1021 prime_1021 (Var 0) proving).
  unfold compiling, proving, next_var; simpl; lia.
Defined.

Lemma any_correct_witness :
  Z.of_nat (length [createBool (Var 0); createBool (Var 1)]) < 1021 /\
  exists r s',
    any 1021 [createBool (Var 0); createBool (Var 1)] compiling = Ok r s' /\
    forall rho,
      Forall is_bit (values 1021 rho [createBool (Var 0); createBool (Var 1)]) ->
      satisfies 1021 rho
        (isZero_gates 1021 2 (any_sum 1021 [createBool (Var 0); createBool (Var 1)])) ->
      is_bit (eval 1021 rho (toField r)) /\
      (eval 1021 rho (toField r) = 1 <->
       Exists (fun v => v = 1)
              (values 1021 rho [createBool (Var 0); createBool (Var 1)])).
Proof.
  split; [unfold compiling, proving, next_var; simpl; lia|].
  destruct (any_correct 1021 prime_1021
              [createBool (Var 0); createBool (Var 1)] compiling)
    as (r & s' & Hrun & _ & Hforced & _).
  - unfold compiling, proving, next_var; simpl; lia.
  - repeat constructor; unfold compiling; simpl; lia.
  - exists r, s'. split; [exact Hrun|].
    intros rho Hbits Hsat. destruct (Hforced rho Hbits Hsat) as (Hb & Hiff & _).
    split; assumption.
Defined.

Lemma boolean_wires_enforced_witness :
  exists bits s',
    unpack 1021 (Var 0) 3 compiling = Ok bits s' /\
    gates s' = gates compiling ++ unpack_gates 1021 2 3 (Var 0) /\
    Forall (fun b => explicitly_boolean b (unpack_gates 1021 2 3 (Var 0))) bits.
Proof.
  destruct (proj1 (boolean_wires_enforced 1021 prime_1021) (Var 0) 3 compiling)
    as [Hreturns Hexplicit].
  destruct Hreturns as (bits & s' & Hrun); [lia|].
  exists bits, s'. split; [exact Hrun|]. exact (Hexplicit bits s' Hrun).
Defined.

Lemma isZero_boolean_sound_witness :
  exists b s',
    isZero 1021 (Var 0) compiling = Ok b s' /\
    gates s' = gates compiling ++ isZero_gates 1021 2 (Var 0) /\
    forallb (fun g => negb (is_boolean_gate g)) (isZero_gates 1021 2 (Var 0)) = true /\
    ~ explicitly_boolean b (isZero_gates 1021 2 (Var 0)) /\
    forall rho,
      satisfies 1021 rho (isZero_gates 1021 2 (Var 0)) ->
      is_bit (eval 1021 rho (toField b)).
Proof.
  exact (isZero_boolean_sound 1021 prime_1021 (Var 0) compiling).
Defined.

(** The wire returned by [isZero] has no boolean constraint of its own:
    the claim that every boolean wire has one fails on it. *)
Lemma every_wire_explicitly_boolean_counterexample :
  isZero 1021 (Var 0) compiling =
    Ok (createBool (Var 2))
       (mkState (Compile 4)
          [ R1CS (Var 2) (Var 0) (Constant 0);
            R1CS (Var 3) (Var 0) (Add (Constant 1) (Scale 1020 (Var 2))) ]) /\
  ~ every_wire_explicitly_boolean 1021.
Proof.
  split; [reflexivity|].
  intros (_ & HisZero & _).
  specialize (HisZero (Var 0) compiling _ _ eq_refl).
  unfold explicitly_boolean in HisZero. simpl in HisZero.
  destruct HisZero as [H | [H | []]]; discriminate.
Qed.


(** ** The further theorems at work in the field of order 1021 *)

Lemma compare_run_compiling :
  compareCompatible 1021 (Var 0) (Var 1) 4 compiling =
  Ok (createBool (Var 6), createBool (Var 9))
     (compare_state3 1021 compiling (Var 0) (Var 1) 4).
Proof. reflexivity. Qed.

Lemma compare_run_proving :
  compareCompatible 1021 (Var 0) (Var 1) 4 proving =
  Ok (createBool (Var 6), createBool (Var 9))
     (compare_state3 1021 proving (Var 0) (Var 1) 4).
Proof. reflexivity. Qed.

Lemma wf_compiling_0 : wf (next_var compiling) (Var 0).
Proof. unfold compiling, next_var; simpl; lia. Qed.

Lemma wf_compiling_1 : wf (next_var compiling) (Var 1).
Proof. unfold compiling, next_var; simpl; lia. Qed.

Lemma compareCompatible_decodes_z_witness :
  exists new,
    gates (compare_state3 1021 compiling (Var 0) (Var 1) 4) = gates compiling ++ new /\
    forall rho, satisfies 1021 rho new ->
      let z := (2 ^ 4 + eval 1021 rho (Var 1) - eval 1021 rho (Var 0)) mod 1021 in
      z < 2 ^ (4 + 1) /\
      eval 1021 rho (Var 6) = flag (2 ^ 4 <=? z) /\
      eval 1021 rho (Var 9) = flag (2 ^ 4 <? z).
Proof.
  exact (compareCompatible_decodes_z 1021 prime_1021 (Var 0) (Var 1) 4 compiling
           _ _ _ compare_run_compiling).
Defined.

Lemma compareCompatible_sound_witness :
  exists new,
    gates (compare_state3 1021 proving (Var 0) (Var 1) 4) = gates proving ++ new /\
    forall rho, satisfies 1021 rho new ->
      eval 1021 rho (Var 0) < 2 ^ 4 -> eval 1021 rho (Var 1) < 2 ^ 4 ->
      eval 1021 rho (Var 6) = flag (eval 1021 rho (Var 0) <=? eval 1021 rho (Var 1)) /\
      eval 1021 rho (Var 9) = flag (eval 1021 rho (Var 0) <? eval 1021 rho (Var 1)).
Proof.
  exact (compareCompatible_sound 1021 prime_1021 (Var 0) (Var 1) 4 proving
           _ _ _ compare_run_proving).
Defined.

Lemma compareCompatible_satisfiable_iff_witness :
  exists new,
    gates (compare_state3 1021 compiling (Var 0) (Var 1) 4) = gates compiling ++ new /\
    (forall rho,
       satisfiable_from 1021 (next_var compiling) rho new <->
       (2 ^ 4 + eval 1021 rho (Var 1) - eval 1021 rho (Var 0)) mod 1021 < 2 ^ (4 + 1)) /\
    (forall rho, eval 1021 rho (Var 0) < 2 ^ 4 -> eval 1021 rho (Var 1) < 2 ^ 4 ->
       satisfiable_from 1021 (next_var compiling) rho new).
Proof.
  exact (compareCompatible_satisfiable_iff 1021 prime_1021 (Var 0) (Var 1) 4 compiling
           _ _ wf_compiling_0 wf_compiling_1 compare_run_compiling).
Defined.

(** [x = 1020] and [y = 0]: the gadget, taken for a comparison of 4-bit
    numbers, says [x < y]. *)
Lemma compareCompatible_wraps_around_witness :
  exists new,
    gates (compare_state3 1021 compiling (Var 0) (Var 1) 4) = gates compiling ++ new /\
    satisfiable_from 1021 (next_var compiling) (lookup [1020; 0]) new /\
    forall rho', agree (next_var compiling) (lookup [1020; 0]) rho' ->
      satisfies 1021 rho' new ->
      eval 1021 rho' (Var 1) < eval 1021 rho' (Var 0) /\
      eval 1021 rho' (Var 6) = 1 /\ eval 1021 rho' (Var 9) = 1.
Proof.
  destruct (compareCompatible_wraps_around 1021 prime_1021 (Var 0) (Var 1) 4 compiling
              _ _ _ wf_compiling_0 wf_compiling_1 compare_run_compiling)
    as (new & Hg & Hwrap).
  exists new. split; [exact Hg|].
  apply (Hwrap (lookup [1020; 0])). vm_compute. reflexivity.
Defined.

Lemma compareCompatible_prover_outcome_witness :
  exists lessOrEqual less s' w',
    compareCompatible 1021 (Var 0) (Var 1) 4 proving = Ok (lessOrEqual, less) s' /\
    mode s' = Prove w' /\
    satisfies 1021 (lookup w') (compare_gates 1021 2 (Var 0) (Var 1) 4) /\
    eval 1021 (lookup w') (toField lessOrEqual) = 1 /\
    eval 1021 (lookup w') (toField less) = 1.
Proof.
  destruct (compareCompatible_prover_outcome 1021 prime_1021 (Var 0) (Var 1) 4
              proving [5; 9]) as [Hin _].
  - reflexivity.
  - simpl; lia.
  - simpl; lia.
  - vm_compute. split; discriminate.
  - destruct Hin as (le & lt & s' & w' & Hrun & Hmode & _ & Hsat & Hle & Hlt).
    + vm_compute. split; reflexivity.
    + exists le, lt, s', w'. repeat split; assumption.
Defined.

Lemma unpack_bits_are_digits_witness :
  exists bits s',
    unpack 1021 (Var 0) 3 compiling = Ok bits s' /\
    gates s' = gates compiling ++ unpack_gates 1021 2 3 (Var 0) /\
    forall rho,
      satisfies 1021 rho (unpack_gates 1021 2 3 (Var 0)) ->
      values 1021 rho bits =
        map (fun k => Z.land (Z.shiftr (eval 1021 rho (Var 0)) (Z.of_nat k)) 1)
            (seq 0 3).
Proof.
  apply (unpack_bits_are_digits 1021 prime_1021 (Var 0) 3 compiling).
  - lia.
  - vm_compute. discriminate.
Defined.

(** Eleven bits in a field of ten bits: 5 has the digits of 5 and those
    of 1026. *)
Lemma unpack_ambiguous_beyond_field_witness :
  exists bits s',
    unpack 1021 (Var 0) 11 proving = Ok bits s' /\
    exists rho1 rho2,
      agree 2 (lookup [5; 9]) rho1 /\ agree 2 (lookup [5; 9]) rho2 /\
      satisfies 1021 rho1 (unpack_gates 1021 2 11 (Var 0)) /\
      satisfies 1021 rho2 (unpack_gates 1021 2 11 (Var 0)) /\
      weighted_sum 0 (values 1021 rho1 bits) = 5 /\
      weighted_sum 0 (values 1021 rho2 bits) = 1026 /\
      values 1021 rho1 bits <> values 1021 rho2 bits.
Proof.
  destruct (unpack_ambiguous_beyond_field 1021 prime_1021 (Var 0) 11 proving)
    as (bits & s' & Hrun & _ & Hamb).
  - lia.
  - unfold proving, next_var; simpl; lia.
  - exists bits, s'. split; [exact Hrun|].
    apply (Hamb (lookup [5; 9])). vm_compute. reflexivity.
Defined.

Lemma assertLessThanOrEqualGeneric_asserts_witness :
  exists s' new,
    assertLessThanOrEqualGeneric 1021 (Var 0) (Var 1) (rangeCheck_bits 1021 3) compiling
      = Ok tt s' /\
    gates s' = gates compiling ++ new /\
    forall rho,
      satisfiable_from 1021 (next_var compiling) rho new <->
      (eval 1021 rho (Var 1) - eval 1021 rho (Var 0)) mod 1021 < 8.
Proof.
  apply (assertLessThanOrEqualGeneric_asserts 1021 prime_1021
           (rangeCheck_bits 1021 3) 8 (Var 0) (Var 1) compiling).
  - apply (rangeCheck_bits_asserts 1021 prime_1021 3 false). lia.
  - exact wf_compiling_0.
  - exact wf_compiling_1.
Defined.

Lemma assertLessThanGeneric_asserts_witness :
  exists s' new,
    assertLessThanGeneric 1021 (Var 0) (Var 1) (rangeCheck_bits 1021 3) compiling
      = Ok tt s' /\
    gates s' = gates compiling ++ new /\
    forall rho,
      satisfiable_from 1021 (next_var compiling) rho new <->
      (eval 1021 rho (Var 1) - 1 - eval 1021 rho (Var 0)) mod 1021 < 8.
Proof.
  apply (assertLessThanGeneric_asserts 1021 prime_1021
           (rangeCheck_bits 1021 3) 8 (Var 0) (Var 1) compiling).
  - apply (rangeCheck_bits_asserts 1021 prime_1021 3 false). lia.
  - exact wf_compiling_0.
  - exact wf_compiling_1.
Defined.

(** [x = 1020] and [y = 0] pass for [x <= y] with the bound [c = 8]. *)
Lemma comparators_wrap_around_witness :
  exists s' new,
    assertLessThanOrEqualGeneric 1021 (Var 0) (Var 1) (rangeCheck_bits 1021 3) compiling
      = Ok tt s' /\
    gates s' = gates compiling ++ new /\
    satisfiable_from 1021 (next_var compiling) (lookup [1020; 0]) new.
Proof.
  destruct (comparators_wrap_around 1021 prime_1021
              (rangeCheck_bits 1021 3) 8 (Var 0) (Var 1) compiling)
    as [(s' & new & Hrun & Hg & Hwrap) _].
  - apply (rangeCheck_bits_asserts 1021 prime_1021 3 false). lia.
  - exact wf_compiling_0.
  - exact wf_compiling_1.
  - exists s', new. split; [exact Hrun|]. split; [exact Hg|].
    apply (Hwrap (lookup [1020; 0])); vm_compute; reflexivity.
Defined.

Lemma any_tests_field_sum_witness :
  exists r s',
    any 1021 [createBool (Var 0); createBool (Var 1)] proving = Ok r s' /\
    gates s' =
      gates proving ++
      isZero_gates 1021 2 (any_sum 1021 [createBool (Var 0); createBool (Var 1)]) /\
    forall rho,
      satisfies 1021 rho
        (isZero_gates 1021 2 (any_sum 1021 [createBool (Var 0); createBool (Var 1)])) ->
      eval 1021 rho (toField r) =
        flag (negb (sum_values
                      (values 1021 rho [createBool (Var 0); createBool (Var 1)])
                    mod 1021 =? 0)).
Proof.
  exact (any_tests_field_sum 1021 prime_1021
           [createBool (Var 0); createBool (Var 1)] proving).
Defined.

Lemma compareCompatible_shape_witness :
  next_var (compare_state3 1021 compiling (Var 0) (Var 1) 4) =
  next_var (compare_state3 1021 proving (Var 0) (Var 1) 4) /\
  exists new,
    gates (compare_state3 1021 compiling (Var 0) (Var 1) 4) = gates compiling ++ new /\
    gates (compare_state3 1021 proving (Var 0) (Var 1) 4) = gates proving ++ new.
Proof.
  exact (proj2 (compareCompatible_shape 1021 (Var 0) (Var 1) 4 compiling proving
                  _ _ _ _ eq_refl compare_run_compiling compare_run_proving)).
Defined.

Lemma compareCompatible_only_appends_witness :
  (exists new,
     gates (compare_state3 1021 proving (Var 0) (Var 1) 4) = gates proving ++ new) /\
  (next_var proving <= next_var (compare_state3 1021 proving (Var 0) (Var 1) 4))%nat /\
  inProver (compare_state3 1021 proving (Var 0) (Var 1) 4) = inProver proving /\
  (forall w, mode proving = Prove w ->
     exists ext, mode (compare_state3 1021 proving (Var 0) (Var 1) 4) = Prove (w ++ ext)).
Proof.
  apply (compareCompatible_only_appends 1021 (Var 0) (Var 1) 4 proving).
  left. eexists. exact compare_run_proving.
Defined.

(** 5 into three bits. *)
Lemma unpack_prover_bits_witness :
  exists w',
    mode (mkState (Prove [5; 9; 1; 0; 1])
            (unpack_gates 1021 2 3 (Var 0))) = Prove w' /\
    values 1021 (lookup w') (map createBool [Var 2; Var 3; Var 4]) = [1; 0; 1] /\
    weighted_sum 0 (values 1021 (lookup w') (map createBool [Var 2; Var 3; Var 4])) = 5 /\
    (satisfies 1021 (lookup w') (unpack_gates 1021 2 3 (Var 0)) <->
     eval 1021 (lookup [5; 9]) (Var 0) < 2 ^ 3).
Proof.
  apply (unpack_prover_bits 1021 prime_1021 (Var 0) 3 proving [5; 9]).
  - reflexivity.
  - simpl; lia.
  - reflexivity.
Defined.

Lemma isZero_solutions_witness :
  exists b s',
    isZero 1021 (Var 0) compiling = Ok b s' /\
    gates s' = gates compiling ++ isZero_gates 1021 2 (Var 0) /\
    forall rho,
      let z := eval 1021 rho (Var 3) in
      (eval 1021 rho (Var 0) <> 0 ->
       (satisfies 1021 rho (isZero_gates 1021 2 (Var 0)) <->
        eval 1021 rho (toField b) = 0 /\ Fp_mul 1021 z (eval 1021 rho (Var 0)) = 1)) /\
      (eval 1021 rho (Var 0) = 0 ->
       (satisfies 1021 rho (isZero_gates 1021 2 (Var 0)) <->
        eval 1021 rho (toField b) = 1)).
Proof.
  exact (isZero_solutions 1021 prime_1021 (Var 0) compiling).
Defined.

(** ** Runs in the Pallas field *)

Example compare_5_5 : compare_values Pallas 5 5 8 = Some (1, 0).
Proof. vm_compute. reflexivity. Qed.

Example compare_3_9 : compare_values Pallas 3 9 8 = Some (1, 1).
Proof. vm_compute. reflexivity. Qed.

Example compare_9_3 : compare_values Pallas 9 3 8 = Some (0, 0).
Proof. vm_compute. reflexivity. Qed.

(** The prover-side guard stops a run on an operand of more than [n] bits. *)
Example compare_out_of_range :
  compareCompatible Pallas (Var 0) (Var 1) 8 (mkState (Prove [300; 3]) []) =
  Throw (ComparisonOutOfRange 256 300 3) (mkState (Prove [300; 3]) []).
Proof. vm_compute. reflexivity. Qed.

(** 253 bits are allowed, 254 are not. *)
Example compare_too_long :
  compareCompatible Pallas (Var 0) (Var 1) 254 compiling =
  Throw (BitLengthTooLarge 253) compiling.
Proof. vm_compute. reflexivity. Qed.

(** A negative bit length passes the guard; the run ends on the missing
    wire, after three constraints have been added. *)
Example compare_negative :
  exists s',
    compareCompatible Pallas (Var 0) (Var 1) (-1) compiling = Throw TypeError s' /\
    length (gates s') = 3%nat.
Proof. eexists. split; vm_compute; reflexivity. Qed.
